(** * The routing-solution validator of [base_case_verification.py]

    A shallow embedding of the class [SolutionValidator]: the location
    registry built by [__init__], the three distance strategies with their
    cache ([calculate_distance]), and the rule checks of
    [validate_solution].

    Python floats are kept abstract (class [FloatOps]); the statements that
    need the value of a great-circle distance are proved in the instance
    [real_ops], where floating-point arithmetic is idealised as exact
    arithmetic on real numbers. *)

From Stdlib Require Import ZArith String Ascii List Bool Lia DecimalString.
From Stdlib Require Import DecimalPos.
From Stdlib Require Import Reals Lra.
From stdpp Require Import base option gmap strings list.

Set Warnings "-register-all".
Local Open Scope Z_scope.

(** ** Exceptions and fallible results *)

(** The subclasses of Python's [Exception] that the program can meet,
    each with the text of [str(e)]; for a [KeyError] that is the [repr] of
    the key. *)
Inductive exn : Type :=
| KeyError (key_repr : string)
| ValueError (msg : string)
| TypeError (msg : string)
| IndexError (msg : string)
| OSError (msg : string)
| OtherException (msg : string).

Inductive result (A : Type) : Type :=
| Ok (a : A)
| Raise (e : exn).
Arguments Ok {A} a.
Arguments Raise {A} e.

Definition rbind {A B} (m : result A) (k : A → result B) : result B :=
  match m with
  | Ok a => k a
  | Raise e => Raise e
  end.

Declare Scope result_scope.
Delimit Scope result_scope with result.
Notation "'do' x <- m ; k" := (rbind m (λ x, k))
  (at level 10, x name, m at level 100, k at level 200) : result_scope.

(** [str(e)] as it is spliced into an error line. *)
Definition exn_str (e : exn) : string :=
  match e with
  | KeyError m | ValueError m | TypeError m | IndexError m | OSError m
  | OtherException m => m
  end.

(** ** Strings *)

(** [s.split(sep)] for a one-character separator: the piece before the
    first separator and the remaining pieces. The result is never empty. *)
Fixpoint split_pieces (sep : ascii) (s : string) : string * list string :=
  match s with
  | EmptyString => (EmptyString, [])
  | String c rest =>
      let '(p, ps) := split_pieces sep rest in
      if Ascii.eqb c sep then (EmptyString, p :: ps) else (String c p, ps)
  end.

Definition split (sep : ascii) (s : string) : list string :=
  let '(p, ps) := split_pieces sep s in p :: ps.

(** [vehicle_id.replace("VEH", empty)]: every occurrence is removed,
    from left to right. *)
Fixpoint remove_VEH (s : string) : string :=
  match s with
  | String "V" (String "E" (String "H" rest)) => remove_VEH rest
  | String c rest => String c (remove_VEH rest)
  | EmptyString => EmptyString
  end.

(** [loc.startswith("C")] *)
Definition startswith_C (s : string) : bool :=
  match s with
  | String "C" _ => true
  | _ => false
  end.

(** [loc.startswith("C") and loc not in ["CDA", "CDB", "CDC"]] *)
Definition is_client_stop (loc : string) : bool :=
  startswith_C loc
  && negb (bool_decide (loc ∈ ["CDA"; "CDB"; "CDC"]%string)).

(** [str(n)] for an integer. *)
Definition int_str (n : Z) : string := NilZero.string_of_int (Z.to_int n).

(** [f"{n:03d}"]: zero padding to width three, the sign included. *)
Definition zero_pad (width : nat) (digits : string) : string :=
  String.concat EmptyString (replicate (width - String.length digits) "0"%string)
  +:+ digits.

Definition fmt_03d (n : Z) : string :=
  if n <? 0 then "-" +:+ zero_pad 2 (int_str (- n))
  else zero_pad 3 (int_str n).

(** ** Identifiers, records and the registry *)

(** A key of [self.locations]: the numeric id of a depot, or a string. *)
Inductive loc_key : Type :=
| IntKey (n : Z)
| StrKey (s : string).

Global Instance loc_key_eq_dec : EqDecision loc_key.
Proof. solve_decision. Defined.

Global Instance loc_key_countable : Countable loc_key.
Proof.
  refine (inj_countable'
            (λ k, match k with IntKey n => inl n | StrKey s => inr s end)
            (λ x, match x with inl n => IntKey n | inr s => StrKey s end) _).
  by intros [].
Defined.

Definition key_str (k : loc_key) : string :=
  match k with
  | IntKey n => int_str n
  | StrKey s => s
  end.

Section Model.
Context {num : Type}.

Record Location : Type := {
  latitude : num;
  longitude : num;
  loc_type : string;
  demand : option Z
}.

Record VehicleSpec : Type := { capacity : Z; range : Z }.

(** Rows of the three data files, already typed by the loader. *)
Record DepotRow : Type := {
  DepotID : Z; depot_Latitude : num; depot_Longitude : num
}.
Record ClientRow : Type := {
  ClientID : Z; Demand : Z; client_Latitude : num; client_Longitude : num
}.
Record VehicleRow : Type := { VehicleID : Z; Capacity : Z; Range : Z }.

(** A row of [solution.csv] whose cells the loader read as the code
    expects them: the cells on which the code calls [split] or [replace]
    are strings, the two counters are integers, and the depot cell is
    whatever the loader inferred (a number or a string). [FrameRow]
    below is the row with these cells as the loader types them. *)
Record SolutionRow : Type := {
  VehicleId : string;
  DepotId : loc_key;
  InitialLoad : Z;
  RouteSequence : string;
  ClientsServed : Z;
  DemandsSatisfied : string
}.

(** The attributes of [self] that do not change after [__init__]. *)
Record SolutionValidator : Type := {
  distance_method : string;
  locations : gmap loc_key Location;
  client_demands : gmap string Z;
  vehicle_specs : gmap Z VehicleSpec;
  solution_df : list SolutionRow
}.

Definition client_key (id : Z) : string := "C" +:+ fmt_03d id.

(** One turn of the depot loop of [__init__] (lines 34-50). *)
Definition add_depot (locs : gmap loc_key Location) (d : DepotRow)
  : gmap loc_key Location :=
  let entry := {| latitude := depot_Latitude d;
                  longitude := depot_Longitude d;
                  loc_type := "depot"; demand := None |} in
  let locs1 := <[IntKey (DepotID d) := entry]> locs in
  if bool_decide (DepotID d = 1) then <[StrKey "CDA" := entry]> locs1
  else locs1.

(** One turn of the client loop (lines 53-60). *)
Definition add_client (locs : gmap loc_key Location) (c : ClientRow)
  : gmap loc_key Location :=
  <[StrKey (client_key (ClientID c)) :=
      {| latitude := client_Latitude c; longitude := client_Longitude c;
         loc_type := "client"; demand := Some (Demand c) |}]> locs.

Definition build_locations (depots : list DepotRow) (clients : list ClientRow)
  : gmap loc_key Location :=
  fold_left add_client clients (fold_left add_depot depots ∅).

Definition build_client_demands (clients : list ClientRow) : gmap string Z :=
  fold_left (λ m c, <[client_key (ClientID c) := Demand c]> m) clients ∅.

Definition build_vehicle_specs (vehicles : list VehicleRow)
  : gmap Z VehicleSpec :=
  fold_left
    (λ m r, <[VehicleID r := {| capacity := Capacity r; range := Range r |}]> m)
    vehicles ∅.

(** The data part of [__init__] (lines 17-74); the cache is loaded
    separately by [load_cache]. *)
Definition init (method : string) (vehicles : list VehicleRow)
    (clients : list ClientRow) (depots : list DepotRow)
    (solution : list SolutionRow) : SolutionValidator :=
  {| distance_method := method;
     locations := build_locations depots clients;
     client_demands := build_client_demands clients;
     vehicle_specs := build_vehicle_specs vehicles;
     solution_df := solution |}.

End Model.
Arguments Location : clear implicits.
Arguments DepotRow : clear implicits.
Arguments ClientRow : clear implicits.
Arguments SolutionValidator : clear implicits.

(** ** Floats, builtins and the outside world *)

(** The float operations the program uses. [math.sin], [math.cos],
    [math.sqrt] and [math.asin] raise [ValueError] outside their domain. *)
Class FloatOps (num : Type) : Type := {
  of_int : Z → num;
  fadd : num → num → num;
  fsub : num → num → num;
  fmul : num → num → num;
  fdiv : num → num → num;
  fsquare : num → num;
  fgt : num → num → bool;
  math_radians : num → num;
  math_sin : num → result num;
  math_cos : num → result num;
  math_sqrt : num → result num;
  math_asin : num → result num
}.

(** A decoded JSON document. An object is the list of its items. *)
Inductive json (num : Type) : Type :=
| JNull
| JBool (b : bool)
| JNum (x : num)
| JStr (s : string)
| JArr (items : list (json num))
| JObj (fields : list (string * json num)).
Arguments JNull {num}.
Arguments JBool {num} b.
Arguments JNum {num} x.
Arguments JStr {num} s.
Arguments JArr {num} items.
Arguments JObj {num} fields.

(** What [requests.get(url)] followed by [response.json()] does. *)
Inductive http_reply (num : Type) : Type :=
| RequestRaises (e : exn)
| JsonRaises (e : exn)
| JsonData (data : json num).
Arguments RequestRaises {num} e.
Arguments JsonRaises {num} e.
Arguments JsonData {num} data.

(** What the program takes from outside its own source: the builtin
    [int] on strings ([None] stands for its [ValueError]), the formatting
    of floats, geopy's [geodesic(..).kilometers], and the routing service,
    which may answer the n-th request of the process as it likes. *)
Class External (num : Type) : Type := {
  py_int : string → option Z;
  float_str : num → string;
  float_fmt_1f : num → string;
  geodesic_kilometers : num * num → num * num → result num;
  requests_get : nat → string → http_reply num
}.

(** Effects that the statements below count. *)
Inductive event : Type :=
| StrategyCall (method loc1 loc2 : string)
| SaveCacheCall.

Global Instance event_eq_dec : EqDecision event.
Proof. solve_decision. Defined.

Section Validator.
Context {num : Type} `{!FloatOps num} `{!External num}.

(** The mutable part: [self.distance_cache], the cache file on disk
    ([None] when it does not exist; when it exists it holds a well-formed
    store), whether it can be opened for writing, the number of requests
    sent so far, and the log of counted effects. *)
Record State : Type := {
  distance_cache : gmap string num;
  cache_file : option (gmap string num);
  cache_file_writable : bool;
  requests_sent : nat;
  events : list event
}.

Definition set_cache (c : gmap string num) (st : State) : State :=
  {| distance_cache := c; cache_file := cache_file st;
     cache_file_writable := cache_file_writable st;
     requests_sent := requests_sent st; events := events st |}.

Definition set_cache_file (f : gmap string num) (st : State) : State :=
  {| distance_cache := distance_cache st; cache_file := Some f;
     cache_file_writable := cache_file_writable st;
     requests_sent := requests_sent st; events := events st |}.

Definition count_request (st : State) : State :=
  {| distance_cache := distance_cache st; cache_file := cache_file st;
     cache_file_writable := cache_file_writable st;
     requests_sent := S (requests_sent st); events := events st |}.

Definition log_event (e : event) (st : State) : State :=
  {| distance_cache := distance_cache st; cache_file := cache_file st;
     cache_file_writable := cache_file_writable st;
     requests_sent := requests_sent st; events := events st ++ [e] |}.

(** [load_cache] (lines 80-86): a missing file gives an empty cache. *)
Definition load_cache (st : State) : State :=
  set_cache (default ∅ (cache_file st)) st.

(** [save_cache] (lines 88-91): the whole dictionary replaces the file. *)
Definition save_cache (st : State) : result unit * State :=
  let st1 := log_event SaveCacheCall st in
  if cache_file_writable st then
    (Ok tt, set_cache_file (distance_cache st) st1)
  else (Raise (OSError "cannot open the cache file for writing"), st1).

(** ** The distance strategies *)

Definition lookup_location (v : SolutionValidator num) (loc : string)
  : result (Location num) :=
  match locations v !! StrKey loc with
  | Some p => Ok p
  | None => Raise (KeyError ("'" +:+ loc +:+ "'"))
  end.

(** [haversine_distance] (lines 93-113) *)
Definition haversine_distance (v : SolutionValidator num)
    (loc1 loc2 : string) : result num :=
  (do p1 <- lookup_location v loc1;
   do p2 <- lookup_location v loc2;
   let lat1 := math_radians (latitude p1) in
   let lon1 := math_radians (longitude p1) in
   let lat2 := math_radians (latitude p2) in
   let lon2 := math_radians (longitude p2) in
   let dlat := fsub lat2 lat1 in
   let dlon := fsub lon2 lon1 in
   do s1 <- math_sin (fdiv dlat (of_int 2));
   do c1 <- math_cos lat1;
   do c2 <- math_cos lat2;
   do s2 <- math_sin (fdiv dlon (of_int 2));
   let a := fadd (fsquare s1) (fmul (fmul c1 c2) (fsquare s2)) in
   do r <- math_sqrt a;
   do c <- math_asin r;
   let earth_radius := of_int 6371 in
   Ok (fmul earth_radius (fmul (of_int 2) c)))%result.

(** [geopy_distance] (lines 115-123) *)
Definition geopy_distance (v : SolutionValidator num)
    (loc1 loc2 : string) : result num :=
  (do p1 <- lookup_location v loc1;
   do p2 <- lookup_location v loc2;
   geodesic_kilometers (latitude p1, longitude p1)
                       (latitude p2, longitude p2))%result.

(** Python's operations on the decoded reply (lines 136-138). *)
Fixpoint assoc (k : string) (fields : list (string * json num))
  : option (json num) :=
  match fields with
  | [] => None
  | (k', x) :: rest => if bool_decide (k = k') then Some x else assoc k rest
  end.

Definition is_substring (needle s : string) : bool :=
  match index 0 needle s with Some _ => true | None => false end.

Definition is_JStr (s : string) (x : json num) : bool :=
  match x with JStr s' => bool_decide (s = s') | _ => false end.

(** [key in data] *)
Definition py_contains (key : string) (data : json num) : result bool :=
  match data with
  | JObj fields => Ok (bool_decide (is_Some (assoc key fields)))
  | JArr items => Ok (existsb (is_JStr key) items)
  | JStr s => Ok (is_substring key s)
  | _ => Raise (TypeError "argument is not iterable")
  end.

(** [data[key]] for a string key *)
Definition py_getitem (key : string) (data : json num) : result (json num) :=
  match data with
  | JObj fields =>
      match assoc key fields with
      | Some x => Ok x
      | None => Raise (KeyError ("'" +:+ key +:+ "'"))
      end
  | JArr _ | JStr _ => Raise (TypeError "indices must be integers")
  | _ => Raise (TypeError "object is not subscriptable")
  end.

(** [len(x)] *)
Definition py_len (x : json num) : result nat :=
  match x with
  | JObj fields => Ok (length fields)
  | JArr items => Ok (length items)
  | JStr s => Ok (String.length s)
  | _ => Raise (TypeError "object has no len()")
  end.

(** [x[0]] *)
Definition py_first (x : json num) : result (json num) :=
  match x with
  | JArr (y :: _) => Ok y
  | JArr [] => Raise (IndexError "list index out of range")
  | JStr (String c _) => Ok (JStr (String c EmptyString))
  | JStr EmptyString => Raise (IndexError "string index out of range")
  | JObj _ => Raise (KeyError "0")
  | _ => Raise (TypeError "object is not subscriptable")
  end.

(** [x / 1000] *)
Definition py_div_1000 (x : json num) : result num :=
  match x with
  | JNum d => Ok (fdiv d (of_int 1000))
  | JBool b => Ok (fdiv (of_int (if b then 1 else 0)) (of_int 1000))
  | _ => Raise (TypeError "unsupported operand type(s) for /")
  end.

(** The body of the [try] after the reply was decoded: [Ok (Some d)] is
    the [return] of line 138, [Ok None] the [else] branch. *)
Definition osrm_read (data : json num) : result (option num) :=
  (do has <- py_contains "routes" data;
   if has then
     do routes <- py_getitem "routes" data;
     do n <- py_len routes;
     if bool_decide (0 < n)%nat then
       do routes' <- py_getitem "routes" data;
       do route <- py_first routes';
       do meters <- py_getitem "distance" route;
       do km <- py_div_1000 meters;
       Ok (Some km)
     else Ok None
   else Ok None)%result.

Definition osrm_try (reply : http_reply num) : result (option num) :=
  match reply with
  | RequestRaises e => Raise e
  | JsonRaises e => Raise e
  | JsonData data => osrm_read data
  end.

Definition osrm_url (p1 p2 : Location num) : string :=
  "http://router.project-osrm.org/route/v1/driving/"
  +:+ float_str (longitude p1) +:+ "," +:+ float_str (latitude p1)
  +:+ ";" +:+ float_str (longitude p2) +:+ "," +:+ float_str (latitude p2).

(** [osrm_distance] (lines 125-146): both branches that do not return
    the reported distance fall back to [haversine_distance]. *)
Definition osrm_distance (v : SolutionValidator num) (loc1 loc2 : string)
    (st : State) : result num * State :=
  match lookup_location v loc1 with
  | Raise e => (Raise e, st)
  | Ok p1 =>
      match lookup_location v loc2 with
      | Raise e => (Raise e, st)
      | Ok p2 =>
          let reply := requests_get (requests_sent st) (osrm_url p1 p2) in
          let st1 := count_request st in
          match osrm_try reply with
          | Ok (Some km) => (Ok km, st1)
          | Ok None => (haversine_distance v loc1 loc2, st1)
          | Raise _ => (haversine_distance v loc1 loc2, st1)
          end
      end
  end.

(** ** The cache *)

Definition cache_key (loc1 loc2 method : string) : string :=
  loc1 +:+ "_" +:+ loc2 +:+ "_" +:+ method.

(** The [if]/[elif] chain of lines 157-164. *)
Definition run_strategy (v : SolutionValidator num) (loc1 loc2 : string)
    (st : State) : result num * State :=
  let m := distance_method v in
  if bool_decide (m = "haversine") then
    (haversine_distance v loc1 loc2, log_event (StrategyCall m loc1 loc2) st)
  else if bool_decide (m = "geopy") then
    (geopy_distance v loc1 loc2, log_event (StrategyCall m loc1 loc2) st)
  else if bool_decide (m = "osrm") then
    osrm_distance v loc1 loc2 (log_event (StrategyCall m loc1 loc2) st)
  else (Raise (ValueError ("Unknown distance method: " +:+ m)), st).

(** [calculate_distance] (lines 148-169) *)
Definition calculate_distance (v : SolutionValidator num)
    (loc1 loc2 : string) (st : State) : result num * State :=
  let key := cache_key loc1 loc2 (distance_method v) in
  match distance_cache st !! key with
  | Some d => (Ok d, st)
  | None =>
      match run_strategy v loc1 loc2 st with
      | (Ok d, st1) => (Ok d, set_cache (<[key := d]> (distance_cache st1)) st1)
      | (Raise e, st1) => (Raise e, st1)
      end
  end.

End Validator.
Arguments State : clear implicits.

(** ** The rule checks *)

(** The entries of the list [errors]; [error_message] gives the text. *)
Inductive error (num : Type) : Type :=
| RouteNotClosed (vehicle_id : string) (depot_id : loc_key)
| CapacityExceeded (vehicle_id : string) (initial_load capacity : Z)
| InvalidLocation (vehicle_id loc : string)
| DistanceError (vehicle_id : string) (e : exn)
| RangeExceeded (vehicle_id : string) (total_distance : num) (range : Z)
| MissingDemand (vehicle_id loc : string)
| IncorrectDemand (vehicle_id loc : string) (actual expected : Z)
| DuplicateVisits (vehicle_id : string)
| ServedMismatch (vehicle_id : string) (clients : nat) (clients_served : Z)
| NotVisited (client : string).
Arguments RouteNotClosed {num}.
Arguments CapacityExceeded {num}.
Arguments InvalidLocation {num}.
Arguments DistanceError {num}.
Arguments RangeExceeded {num}.
Arguments MissingDemand {num}.
Arguments IncorrectDemand {num}.
Arguments DuplicateVisits {num}.
Arguments ServedMismatch {num}.
Arguments NotVisited {num}.

(** The fields of a row after lines 177-185. *)
Record Route : Type := {
  vehicle_id : string;
  depot_id : loc_key;
  initial_load : Z;
  route_sequence : list string;
  clients_served : Z;
  demands_satisfied : list Z;
  vehicle_number : Z;
  vehicle_spec : VehicleSpec
}.

Record ValidationResult (num : Type) : Type := {
  feasible : bool;
  errors : list (error num)
}.
Arguments feasible {num}.
Arguments errors {num}.

Section Checks.
Context {num : Type} `{!FloatOps num} `{!External num}.

Definition error_message (e : error num) : string :=
  match e with
  | RouteNotClosed vid d =>
      "Route " +:+ vid +:+ " does not start and end at depot " +:+ key_str d
  | CapacityExceeded vid load cap =>
      "Route " +:+ vid +:+ " exceeds capacity: " +:+ int_str load
      +:+ " > " +:+ int_str cap
  | InvalidLocation vid loc =>
      "Route " +:+ vid +:+ " has invalid location: " +:+ loc
  | DistanceError vid e =>
      "Route " +:+ vid +:+ " distance calculation error: " +:+ exn_str e
  | RangeExceeded vid total rng =>
      "Route " +:+ vid +:+ " exceeds range: " +:+ float_fmt_1f total
      +:+ " > " +:+ int_str rng
  | MissingDemand vid loc =>
      "Route " +:+ vid +:+ " has missing demand value for client " +:+ loc
  | IncorrectDemand vid loc actual expected =>
      "Route " +:+ vid +:+ " has incorrect demand for " +:+ loc +:+ ": "
      +:+ int_str actual +:+ " != " +:+ int_str expected
  | DuplicateVisits vid => "Route " +:+ vid +:+ " has duplicate client visits"
  | ServedMismatch vid n served =>
      "Route " +:+ vid +:+ " clients_served mismatch: "
      +:+ int_str (Z.of_nat n) +:+ " != " +:+ int_str served
  | NotVisited c => "Client " +:+ c +:+ " was not visited"
  end.

Definition int_of_str (s : string) : result Z :=
  match py_int s with
  | Some n => Ok n
  | None => Raise (ValueError ("invalid literal for int(): " +:+ s))
  end.

(** [[int(d) for d in pieces]]: the first bad piece raises. *)
Fixpoint ints_of_strs (pieces : list string) : result (list Z) :=
  match pieces with
  | [] => Ok []
  | p :: rest =>
      (do n <- int_of_str p;
       do ns <- ints_of_strs rest;
       Ok (n :: ns))%result
  end.

(** Lines 177-185: the fields of the row and the vehicle's
    specification, a [KeyError] when the fleet has no such vehicle. *)
Definition read_route (v : SolutionValidator num) (row : SolutionRow)
  : result Route :=
  (let route_sequence := split "-" (RouteSequence row) in
   do demands_satisfied <- ints_of_strs (split "-" (DemandsSatisfied row));
   do vehicle_number <- int_of_str (remove_VEH (VehicleId row));
   do vehicle_spec <-
     match vehicle_specs v !! vehicle_number with
     | Some spec => Ok spec
     | None => Raise (KeyError (int_str vehicle_number))
     end;
   Ok {| vehicle_id := VehicleId row;
         depot_id := DepotId row;
         initial_load := InitialLoad row;
         route_sequence := route_sequence;
         clients_served := ClientsServed row;
         demands_satisfied := demands_satisfied;
         vehicle_number := vehicle_number;
         vehicle_spec := vehicle_spec |})%result.

(** Check 1 (line 188). [split] never returns an empty list, so the
    defaults of [hd] and [last] are not reached. *)
Definition starts_and_ends_at (depot : loc_key) (seq : list string) : bool :=
  bool_decide (StrKey (hd EmptyString seq) = depot)
  && bool_decide (StrKey (List.last seq EmptyString) = depot).

(** The pairs [(route_sequence[i], route_sequence[i + 1])] of line 201. *)
Definition consecutive_pairs (seq : list string) : list (string * string) :=
  zip seq (tail seq).

Definition known (v : SolutionValidator num) (loc : string) : bool :=
  bool_decide (is_Some (locations v !! StrKey loc)).

(** One turn of the loop of check 3 (lines 202-221). *)
Definition range_step (v : SolutionValidator num) (vid : string)
    (acc : num * list (error num) * State num) (pair : string * string)
  : num * list (error num) * State num :=
  let '(total_distance, errs, st) := acc in
  let '(from_loc, to_loc) := pair in
  if negb (known v from_loc) then
    (total_distance, errs ++ [InvalidLocation vid from_loc], st)
  else if negb (known v to_loc) then
    (total_distance, errs ++ [InvalidLocation vid to_loc], st)
  else
    match calculate_distance v from_loc to_loc st with
    | (Ok distance, st1) => (fadd total_distance distance, errs, st1)
    | (Raise e, st1) => (total_distance, errs ++ [DistanceError vid e], st1)
    end.

Definition range_loop (v : SolutionValidator num) (vid : string)
    (pairs : list (string * string))
    (acc : num * list (error num) * State num)
  : num * list (error num) * State num :=
  fold_left (range_step v vid) pairs acc.

(** Check 3 (lines 200-226). *)
Definition check_range (v : SolutionValidator num) (r : Route)
    (errs : list (error num)) (st : State num)
  : list (error num) * State num :=
  let '(total_distance, errs1, st1) :=
    range_loop v (vehicle_id r) (consecutive_pairs (route_sequence r))
               (of_int 0, errs, st) in
  if fgt total_distance (of_int (range (vehicle_spec r))) then
    (errs1 ++ [RangeExceeded (vehicle_id r) total_distance
                 (range (vehicle_spec r))], st1)
  else (errs1, st1).

(** One turn of the loop of check 4 (lines 230-248). *)
Definition demand_step (v : SolutionValidator num) (r : Route)
    (acc : nat * gset string * list (error num)) (loc : string)
  : nat * gset string * list (error num) :=
  let '(client_idx, visited_clients, errs) := acc in
  if is_client_stop loc then
    match demands_satisfied r !! client_idx with
    | None =>
        (client_idx, visited_clients,
         errs ++ [MissingDemand (vehicle_id r) loc])
    | Some actual_demand =>
        let expected_demand := default 0 (client_demands v !! loc) in
        (S client_idx, {[loc]} ∪ visited_clients,
         if bool_decide (actual_demand ≠ expected_demand) then
           errs ++ [IncorrectDemand (vehicle_id r) loc
                      actual_demand expected_demand]
         else errs)
    end
  else acc.

Definition demand_loop (v : SolutionValidator num) (r : Route)
    (seq : list string) (acc : nat * gset string * list (error num))
  : nat * gset string * list (error num) :=
  fold_left (demand_step v r) seq acc.

(** The body of the loop over routes, after the row was read
    (lines 187-263). *)
Definition check_route (v : SolutionValidator num) (r : Route)
    (acc : list (error num) * gset string * State num)
  : list (error num) * gset string * State num :=
  let '(errs, visited_clients, st) := acc in
  let vid := vehicle_id r in
  let errs1 :=
    if starts_and_ends_at (depot_id r) (route_sequence r) then errs
    else errs ++ [RouteNotClosed vid (depot_id r)] in
  let errs2 :=
    if bool_decide (initial_load r > capacity (vehicle_spec r)) then
      errs1 ++ [CapacityExceeded vid (initial_load r)
                  (capacity (vehicle_spec r))]
    else errs1 in
  let '(errs3, st3) := check_range v r errs2 st in
  let '(_, visited4, errs4) :=
    demand_loop v r (route_sequence r) (0%nat, visited_clients, errs3) in
  let route_clients := filter (λ loc, is_client_stop loc = true)
                              (route_sequence r) in
  let errs5 :=
    if bool_decide (length route_clients ≠ length (remove_dups route_clients))
    then errs4 ++ [DuplicateVisits vid] else errs4 in
  let errs6 :=
    if bool_decide (Z.of_nat (length route_clients) ≠ clients_served r) then
      errs5 ++ [ServedMismatch vid (length route_clients) (clients_served r)]
    else errs5 in
  (errs6, visited4, st3).

(** The loop of line 176: a row that cannot be read ends the pass. *)
Fixpoint validate_routes (v : SolutionValidator num)
    (rows : list SolutionRow)
    (acc : list (error num) * gset string * State num)
  : result (list (error num) * gset string) * State num :=
  match rows with
  | [] => (Ok (acc.1.1, acc.1.2), acc.2)
  | row :: rest =>
      match read_route v row with
      | Raise e => (Raise e, acc.2)
      | Ok r => validate_routes v rest (check_route v r acc)
      end
  end.

(** All the routes of the solution, one after the other. *)
Definition check_routes (v : SolutionValidator num) (routes : list Route)
    (acc : list (error num) * gset string * State num)
  : list (error num) * gset string * State num :=
  fold_left (λ acc r, check_route v r acc) routes acc.

(** A row that lines 177-185 read without an exception: the pieces of the
    demand list and the vehicle number are numerals, and the fleet has
    the vehicle. *)
Definition row_readable (v : SolutionValidator num) (row : SolutionRow)
  : Prop :=
  Forall (λ p, is_Some (py_int p)) (split "-" (DemandsSatisfied row))
  ∧ ∃ n, py_int (remove_VEH (VehicleId row)) = Some n
         ∧ is_Some (vehicle_specs v !! n).

(** Check 5 (lines 266-270). Python iterates over the set in an order of
    its own; here the missing clients come in the order of [elements]. *)
Definition missing_clients (v : SolutionValidator num)
    (visited_clients : gset string) : list string :=
  elements (dom (client_demands v) ∖ visited_clients).

(** [validate_solution] (lines 171-275) *)
Definition validate_solution (v : SolutionValidator num) (st : State num)
  : result (ValidationResult num) * State num :=
  match validate_routes v (solution_df v) ([], ∅, st) with
  | (Raise e, st1) => (Raise e, st1)
  | (Ok (errs, visited_clients), st1) =>
      let errs1 := errs ++ map NotVisited (missing_clients v visited_clients) in
      match save_cache st1 with
      | (Raise e, st2) => (Raise e, st2)
      | (Ok _, st2) =>
          (Ok {| feasible := Nat.eqb (length errs1) 0; errors := errs1 |}, st2)
      end
  end.

End Checks.

(** ** Exact real arithmetic as an instance of the float operations *)

Definition Rgtb (x y : R) : bool := if Rgt_dec x y then true else false.

(** [math.sqrt] and [math.asin] with their domain checks. *)
Definition real_sqrt (x : R) : result R :=
  if Rlt_dec x 0 then Raise (ValueError "math domain error") else Ok (sqrt x).

Definition real_asin (x : R) : result R :=
  if Rlt_dec x (-1) then Raise (ValueError "math domain error")
  else if Rlt_dec 1 x then Raise (ValueError "math domain error")
  else Ok (asin x).

Global Instance real_ops : FloatOps R := {|
  of_int := IZR;
  fadd := Rplus;
  fsub := Rminus;
  fmul := Rmult;
  fdiv := Rdiv;
  fsquare := λ x, (x * x)%R;
  fgt := Rgtb;
  math_radians := λ x, (x * (PI / 180))%R;
  math_sin := λ x, Ok (sin x);
  math_cos := λ x, Ok (cos x);
  math_sqrt := real_sqrt;
  math_asin := real_asin
|}.

(** A process without network access and without geopy: every request
    raises, [int] reads plain decimal numerals, floats print as a mark. *)
Definition decimal_int (s : string) : option Z :=
  Z.of_int <$> NilZero.int_of_string s.

Definition offline : External R := {|
  py_int := decimal_int;
  float_str := λ _, "<float>"%string;
  float_fmt_1f := λ _, "<float>"%string;
  geodesic_kilometers := λ _ _, Raise (OtherException "geopy is not installed");
  requests_get := λ _ _, RequestRaises (OtherException "connection refused")
|}.

(** The quantity under the square root of the haversine formula, and the
    distance it gives, for two points in degrees. *)
Definition haversine_a (lat1 lon1 lat2 lon2 : R) : R :=
  let phi1 := (lat1 * (PI / 180))%R in
  let phi2 := (lat2 * (PI / 180))%R in
  let lam1 := (lon1 * (PI / 180))%R in
  let lam2 := (lon2 * (PI / 180))%R in
  (sin ((phi2 - phi1) / 2) * sin ((phi2 - phi1) / 2)
   + cos phi1 * cos phi2
     * (sin ((lam2 - lam1) / 2) * sin ((lam2 - lam1) / 2)))%R.

Definition great_circle (p1 p2 : Location R) : R :=
  (6371 * (2 * asin (sqrt (haversine_a (latitude p1) (longitude p1)
                                        (latitude p2) (longitude p2)))))%R.


(** ** The data set of the end-to-end test *)

Definition base_depots : list (DepotRow R) :=
  [ {| DepotID := 1; depot_Latitude := 0%R; depot_Longitude := 0%R |} ].

Definition base_clients : list (ClientRow R) :=
  [ {| ClientID := 1; Demand := 5;
       client_Latitude := 0%R; client_Longitude := 1%R |} ].

Definition base_vehicles : list VehicleRow :=
  [ {| VehicleID := 1; Capacity := 10; Range := 1000 |} ].

Definition base_row (sequence demands : string) : SolutionRow :=
  {| VehicleId := "VEH1"; DepotId := StrKey "CDA"; InitialLoad := 5;
     RouteSequence := sequence; ClientsServed := 1;
     DemandsSatisfied := demands |}.

(** The route of the test with the cells of its row as text; the file
    as the loader reads it is [base_frame] below. *)
Definition base_solution : list SolutionRow :=
  [ base_row "CDA-C001-CDA" "5" ].

Definition base_case (method : string) : SolutionValidator R :=
  init method base_vehicles base_clients base_depots base_solution.

(** The process before [__init__]: no cache file, nothing sent. *)
Definition fresh_state : State R :=
  {| distance_cache := ∅; cache_file := None; cache_file_writable := true;
     requests_sent := 0; events := [] |}.

(** ** How a pass changes the state *)

Section Grows.
Context {num : Type}.

(** [grows m st st' new]: from [st] to [st'] the program logged the
    strategy calls [new] of method [m] and nothing else, left the cache
    file alone, kept every cached entry, and added entries only under keys
    of the logged calls. *)
Record grows (m : string) (st st' : State num) (new : list event) : Prop := {
  grows_events : events st' = events st ++ new;
  grows_calls : Forall (λ e, ∃ a b, e = StrategyCall m a b) new;
  grows_file : cache_file st' = cache_file st;
  grows_writable : cache_file_writable st' = cache_file_writable st;
  grows_cache : distance_cache st ⊆ distance_cache st';
  grows_keys : ∀ k, is_Some (distance_cache st' !! k) →
      is_Some (distance_cache st !! k)
      ∨ ∃ a b, StrategyCall m a b ∈ new ∧ k = cache_key a b m
}.

End Grows.

(** ** The characters of an identifier *)

(** Whether the separator of [cache_key] occurs in a string. *)
Fixpoint has_underscore (s : string) : bool :=
  match s with
  | EmptyString => false
  | String c rest => Ascii.eqb c "_" || has_underscore rest
  end.

(** ** Replies of the routing service *)

Section Replies.
Context {num : Type}.





End Replies.

(** ** Notions used to state the properties of the checks *)

Section Notions.
Context {num : Type}.

(** The endpoint that the guards of lines 206-213 report for a pair:
    the origin when it is unknown, else the destination when it is. *)
Definition reported_endpoint (v : SolutionValidator num)
    (pair : string * string) : option string :=
  if negb (known v pair.1) then Some pair.1
  else if negb (known v pair.2) then Some pair.2
  else None.

(** The "invalid location" entries of an error list, in order. *)
Definition invalid_locations (errs : list (error num))
  : list (string * string) :=
  omap (λ e, match e with
             | InvalidLocation vid loc => Some (vid, loc)
             | _ => None
             end) errs.

(** The client stops of a route, in the order of the sequence; those that
    find an entry of the demand list, and those that come after the list
    is exhausted. *)
Definition route_clients (r : Route) : list string :=
  filter (λ loc, is_client_stop loc = true) (route_sequence r).

Definition served_stops (r : Route) : list string :=
  take (length (demands_satisfied r)) (route_clients r).

Definition unserved_stops (r : Route) : list string :=
  drop (length (demands_satisfied r)) (route_clients r).

End Notions.

(** ** Concrete runs on the data set of the end-to-end test *)

Definition depot_location : Location R :=
  {| latitude := 0%R; longitude := 0%R; loc_type := "depot"; demand := None |}.

Definition client_location : Location R :=
  {| latitude := 0%R; longitude := 1%R; loc_type := "client";
     demand := Some 5 |}.

(** The route that lines 177-185 read from [base_row sequence "5"]. *)
Definition base_route (sequence : list string) : Route :=
  {| vehicle_id := "VEH1"; depot_id := StrKey "CDA"; initial_load := 5;
     route_sequence := sequence; clients_served := 1;
     demands_satisfied := [5]; vehicle_number := 1;
     vehicle_spec := {| capacity := 10; range := 1000 |} |}.

(** The validator of the test with another solution file. *)
Definition base_case_with (method : string) (solution : list SolutionRow)
  : SolutionValidator R :=
  init method base_vehicles base_clients base_depots solution.

(** The length of one leg of the test route, in kilometers. *)
Definition base_leg : R := great_circle depot_location client_location.

(** The state after a leg was computed under the great-circle method,
    and after [save_cache] succeeded. *)
Definition after_leg (a b : string) (d : R) (st : State R) : State R :=
  set_cache (<[cache_key a b "haversine" := d]> (distance_cache st))
            (log_event (StrategyCall "haversine" a b) st).

Definition saved {num : Type} (st : State num) : State num :=
  set_cache_file (distance_cache st) (log_event SaveCacheCall st).

(** A row for a vehicle that the fleet of the test does not have. *)
Definition unknown_vehicle_row : SolutionRow :=
  {| VehicleId := "VEH2"; DepotId := StrKey "CDA"; InitialLoad := 5;
     RouteSequence := "CDA-C001-CDA"; ClientsServed := 1;
     DemandsSatisfied := "5" |}.

(** ** Proof automation *)

(** [l] is a prefix of [l] followed by appended entries. *)
Ltac solve_prefix :=
  repeat first [reflexivity | apply prefix_app_r].


(** ** The solution frame as the loader leaves it *)

(** A cell of a column that [pd.read_csv] read without a [dtype]
    (line 27): a string, or an integer when every cell of the column is
    a bare numeral. *)
Inductive cell : Type :=
| StrCell (s : string)
| IntCell (n : Z).

(** The [AttributeError] of a string method looked up on an integer; the
    type [exn] keeps it among the other exceptions. *)
Definition attribute_error (method : string) : exn :=
  OtherException ("'int' object has no attribute '" +:+ method +:+ "'").

(** [cell.split] and [cell.replace] exist on a string only. *)
Definition str_method (method : string) (c : cell) : result string :=
  match c with
  | StrCell s => Ok s
  | IntCell _ => Raise (attribute_error method)
  end.

(** A row of the frame before lines 177-185 call the string methods:
    the three cells they are called on are as the loader typed them. *)
Record FrameRow : Type := {
  frame_VehicleId : cell;
  frame_DepotId : loc_key;
  frame_InitialLoad : Z;
  frame_RouteSequence : cell;
  frame_ClientsServed : Z;
  frame_DemandsSatisfied : cell
}.


Section Frame.
Context {num : Type} `{!FloatOps num} `{!External num}.

(** Lines 177-185 on a row of the frame, in the order of the source:
    [split] on the sequence cell (line 180), [split] on the demand cell
    and [int] on its pieces (line 182), [replace] on the vehicle cell and
    [int] (line 184), the vehicle's specification (line 185). *)
Definition read_frame_route (v : SolutionValidator num) (row : FrameRow)
  : result Route :=
  (do sequence <- str_method "split" (frame_RouteSequence row);
   let route_sequence := split "-" sequence in
   do demands <- str_method "split" (frame_DemandsSatisfied row);
   do demands_satisfied <- ints_of_strs (split "-" demands);
   do vehicle_id <- str_method "replace" (frame_VehicleId row);
   do vehicle_number <- int_of_str (remove_VEH vehicle_id);
   do vehicle_spec <-
     match vehicle_specs v !! vehicle_number with
     | Some spec => Ok spec
     | None => Raise (KeyError (int_str vehicle_number))
     end;
   Ok {| vehicle_id := vehicle_id;
         depot_id := frame_DepotId row;
         initial_load := frame_InitialLoad row;
         route_sequence := route_sequence;
         clients_served := frame_ClientsServed row;
         demands_satisfied := demands_satisfied;
         vehicle_number := vehicle_number;
         vehicle_spec := vehicle_spec |})%result.

(** The loop of line 176 over the rows of the frame. *)
Fixpoint validate_frame_routes (v : SolutionValidator num)
    (rows : list FrameRow)
    (acc : list (error num) * gset string * State num)
  : result (list (error num) * gset string) * State num :=
  match rows with
  | [] => (Ok (acc.1.1, acc.1.2), acc.2)
  | row :: rest =>
      match read_frame_route v row with
      | Raise e => (Raise e, acc.2)
      | Ok r => validate_frame_routes v rest (check_route v r acc)
      end
  end.

(** [validate_solution] (lines 171-275) on the frame [frame] in the place
    of [self.solution_df]. *)
Definition validate_frame (v : SolutionValidator num) (frame : list FrameRow)
    (st : State num) : result (ValidationResult num) * State num :=
  match validate_frame_routes v frame ([], ∅, st) with
  | (Raise e, st1) => (Raise e, st1)
  | (Ok (errs, visited_clients), st1) =>
      let errs1 := errs ++ map NotVisited (missing_clients v visited_clients) in
      match save_cache st1 with
      | (Raise e, st2) => (Raise e, st2)
      | (Ok _, st2) =>
          (Ok {| feasible := Nat.eqb (length errs1) 0; errors := errs1 |}, st2)
      end
  end.

End Frame.

(** The solution file of the end-to-end test, with the cell of its
    demand column as given: [IntCell 5] is what the loader makes of the
    lone numeral, [StrCell "5"] the same file with the column as text. *)
Definition base_frame (demands : cell) : list FrameRow :=
  [ {| frame_VehicleId := StrCell "VEH1"; frame_DepotId := StrKey "CDA";
       frame_InitialLoad := 5; frame_RouteSequence := StrCell "CDA-C001-CDA";
       frame_ClientsServed := 1; frame_DemandsSatisfied := demands |} ].



(** ** A client that geopy refuses *)





(** ** Notions used to state further properties of the code *)

(** The characters that [fmt_03d] writes: a sign or a digit. *)
Definition numeral_char (c : ascii) : bool :=
  match c with
  | "-" | "0" | "1" | "2" | "3" | "4" | "5" | "6" | "7" | "8" | "9" => true
  | _ => false
  end%char.

Fixpoint all_numeral (s : string) : bool :=
  match s with
  | EmptyString => true
  | String c rest => numeral_char c && all_numeral rest
  end.

(** The identifier that a client key was built from. *)
Definition client_id_of_key (key : string) : option Z :=
  match key with
  | String "C" rest => decimal_int rest
  | _ => None
  end.

(** The entry that [__init__] writes for a client row, and the
    specification it writes for a vehicle row. *)
Definition client_entry {num : Type} (c : ClientRow num) : Location num :=
  {| latitude := client_Latitude c; longitude := client_Longitude c;
     loc_type := "client"; demand := Some (Demand c) |}.

Definition vehicle_entry (r : VehicleRow) : VehicleSpec :=
  {| capacity := Capacity r; range := Range r |}.

Section RouteErrors.
Context {num : Type} `{!FloatOps num} `{!External num}.

(** The errors of checks 1 and 2 for a route (lines 188-197). *)
Definition closure_capacity_errors (r : Route) : list (error num) :=
  (if starts_and_ends_at (depot_id r) (route_sequence r) then []
   else [RouteNotClosed (vehicle_id r) (depot_id r)])
  ++ (if bool_decide (initial_load r > capacity (vehicle_spec r)) then
        [CapacityExceeded (vehicle_id r) (initial_load r)
           (capacity (vehicle_spec r))]
      else []).

(** The errors of check 4 and of the two counts that follow it
    (lines 229-263). *)
Definition demand_count_errors (v : SolutionValidator num) (r : Route)
  : list (error num) :=
  (demand_loop v r (route_sequence r) (0%nat, ∅, [])).2
  ++ (if bool_decide (length (route_clients r)
                      ≠ length (remove_dups (route_clients r)))
      then [DuplicateVisits (vehicle_id r)] else [])
  ++ (if bool_decide (Z.of_nat (length (route_clients r))
                      ≠ clients_served r)
      then [ServedMismatch (vehicle_id r) (length (route_clients r))
              (clients_served r)]
      else []).

(** What a route must satisfy for checks 1, 2 and 4 and the two counts
    to stay silent; the range check and the unknown locations are apart,
    since they depend on the distances. *)
Record route_respects_rules (v : SolutionValidator num) (r : Route)
  : Prop := {
  rule_closed :
    StrKey (hd EmptyString (route_sequence r)) = depot_id r
    ∧ StrKey (List.last (route_sequence r) EmptyString) = depot_id r;
  rule_capacity : initial_load r ≤ capacity (vehicle_spec r);
  rule_known :
    Forall (λ p, known v p.1 = true ∧ known v p.2 = true)
           (consecutive_pairs (route_sequence r));
  rule_no_duplicate : NoDup (route_clients r);
  rule_served : Z.of_nat (length (route_clients r)) = clients_served r;
  rule_demands_present :
    (length (route_clients r) ≤ length (demands_satisfied r))%nat;
  rule_demands_right :
    ∀ (i : nat) (c : string) (d : Z),
      route_clients r !! i = Some c →
      demands_satisfied r !! i = Some d →
      d = default 0 (client_demands v !! c)
}.

(** The same route with another list of declared demands. *)
Definition with_demands (r : Route) (demands : list Z) : Route :=
  {| vehicle_id := vehicle_id r; depot_id := depot_id r;
     initial_load := initial_load r; route_sequence := route_sequence r;
     clients_served := clients_served r; demands_satisfied := demands;
     vehicle_number := vehicle_number r; vehicle_spec := vehicle_spec r |}.

End RouteErrors.

Section RangeRule.
Context {num : Type} `{!FloatOps num} `{!External num}.

(** Started in state [st], the range loop of the route finds no error
    and a total within the vehicle's range. *)
Definition route_within_range (v : SolutionValidator num) (r : Route)
    (st : State num) : Prop :=
  (range_loop v (vehicle_id r) (consecutive_pairs (route_sequence r))
     (of_int 0, [], st)).1.2 = []
  ∧ fgt (range_loop v (vehicle_id r) (consecutive_pairs (route_sequence r))
           (of_int 0, [], st)).1.1
        (of_int (range (vehicle_spec r))) = false.

(** The states in which a pass started in [st] reaches the routes of a
    list, one per route: the body of the loop for a route hands its
    state to the next. *)
Fixpoint route_states (v : SolutionValidator num) (routes : list Route)
    (st : State num) : list (State num) :=
  match routes with
  | [] => []
  | r :: rest => st :: route_states v rest (check_route v r ([], ∅, st)).2
  end.

(** The errors that no route check produces. *)
Definition is_not_visited (e : error num) : bool :=
  match e with NotVisited _ => true | _ => false end.

End RangeRule.

(** ** Further concrete data *)

(** An earlier row for the client of the test, with another demand. *)
Definition old_client_row : ClientRow R :=
  {| ClientID := 1; Demand := 9;
     client_Latitude := 2%R; client_Longitude := 3%R |}.

Definition base_client_row : ClientRow R :=
  {| ClientID := 1; Demand := 5;
     client_Latitude := 0%R; client_Longitude := 1%R |}.

Definition base_vehicle_row : VehicleRow :=
  {| VehicleID := 1; Capacity := 10; Range := 1000 |}.

(** The state in which the pass over the test data set ends. *)
Definition base_final_state : State R :=
  saved (after_leg "C001" "CDA" base_leg
           (after_leg "CDA" "C001" base_leg fresh_state)).

(** A new process that finds the cache file of that pass. *)
Definition next_process : State R :=
  {| distance_cache := ∅; cache_file := cache_file base_final_state;
     cache_file_writable := true; requests_sent := 0; events := [] |}.

(** A state in which both legs of the test route are cached under a
    method name. *)
Definition cached_state (method : string) : State R :=
  {| distance_cache :=
       <[cache_key "C001" "CDA" method := 100%R]>
         (<[cache_key "CDA" "C001" method := 100%R]> ∅);
     cache_file := None; cache_file_writable := true;
     requests_sent := 0; events := [] |}.

(** The same validator with another solution file. *)
Definition with_solution {num : Type} (v : SolutionValidator num)
    (rows : list SolutionRow) : SolutionValidator num :=
  {| distance_method := distance_method v; locations := locations v;
     client_demands := client_demands v; vehicle_specs := vehicle_specs v;
     solution_df := rows |}.
(** * Properties *)

(** ** The string helpers on the values of the data files *)

Example split_sequence :
  split "-" "CDA-C001-CDA" = ["CDA"; "C001"; "CDA"]%string.
Proof. reflexivity. Qed.

Example split_without_separator : split "-" "5" = ["5"%string].
Proof. reflexivity. Qed.

Example split_trailing_separator :
  split "-" "7-" = ["7"%string; EmptyString].
Proof. reflexivity. Qed.

Example remove_VEH_12 : remove_VEH "VEH12" = "12"%string.
Proof. reflexivity. Qed.

Example client_key_7 : client_key 7 = "C007"%string.
Proof. reflexivity. Qed.

Example client_key_1234 : client_key 1234 = "C1234"%string.
Proof. reflexivity. Qed.

Example client_key_negative : client_key (-5) = "C-05"%string.
Proof. reflexivity. Qed.

Example depot_alias_is_no_client :
  is_client_stop "CDA" = false ∧ is_client_stop "C001" = true
  ∧ is_client_stop "1" = false.
Proof. repeat split; reflexivity. Qed.

Example not_visited_message :
  @error_message R offline (NotVisited "C003")
  = "Client C003 was not visited"%string.
Proof. reflexivity. Qed.

Example capacity_message :
  @error_message R offline (CapacityExceeded "VEH1" 120 100)
  = "Route VEH1 exceeds capacity: 120 > 100"%string.
Proof. reflexivity. Qed.

Lemma split_nonempty (sep : ascii) (s : string) : split sep s ≠ [].
Proof. unfold split. by destruct (split_pieces sep s). Qed.

(** ** Real arithmetic *)


Lemma Rgtb_false (x y : R) : (x <= y)%R → Rgtb x y = false.
Proof. intros H. unfold Rgtb. destruct (Rgt_dec x y); [lra | done]. Qed.

Lemma sin_sq_bound (x : R) : (0 <= sin x * sin x <= 1)%R.
Proof. pose proof (Rtrigo_facts.sin2_bound x) as H. unfold Rsqr in H. exact H. Qed.

Lemma cos_sq_bound (x : R) : (0 <= cos x * cos x <= 1)%R.
Proof.
  pose proof (sin2_cos2 x) as H. pose proof (sin_sq_bound x) as Hs.
  unfold Rsqr in H. nra.
Qed.

(** The product of the two cosines, through the half sum and the half
    difference of the angles. *)
Lemma cos_cos_half (p q : R) :
  (cos p * cos q
   = cos ((p + q) / 2) * cos ((p + q) / 2)
     - sin ((q - p) / 2) * sin ((q - p) / 2))%R.
Proof.
  set (s := ((p + q) / 2)%R). set (x := ((q - p) / 2)%R).
  replace p with (s - x)%R by (unfold s, x; lra).
  replace q with (s + x)%R at 1 by (unfold s, x; lra).
  rewrite cos_minus, cos_plus.
  pose proof (sin2_cos2 s) as Hs. pose proof (sin2_cos2 x) as Hx.
  unfold Rsqr in Hs, Hx. nra.
Qed.

Lemma haversine_a_bound (lat1 lon1 lat2 lon2 : R) :
  (0 <= haversine_a lat1 lon1 lat2 lon2 <= 1)%R.
Proof.
  unfold haversine_a. cbv zeta. rewrite cos_cos_half.
  set (S := (sin ((lat2 * (PI / 180) - lat1 * (PI / 180)) / 2))%R).
  set (C := (cos ((lat1 * (PI / 180) + lat2 * (PI / 180)) / 2))%R).
  set (H := (sin ((lon2 * (PI / 180) - lon1 * (PI / 180)) / 2))%R).
  assert (0 <= S * S <= 1)%R as HS by apply sin_sq_bound.
  assert (0 <= C * C <= 1)%R as HC by apply cos_sq_bound.
  assert (0 <= H * H <= 1)%R as HH by apply sin_sq_bound.
  nra.
Qed.

Lemma haversine_a_sym (lat1 lon1 lat2 lon2 : R) :
  haversine_a lat1 lon1 lat2 lon2 = haversine_a lat2 lon2 lat1 lon1.
Proof.
  unfold haversine_a. cbv zeta.
  replace ((lat1 * (PI / 180) - lat2 * (PI / 180)) / 2)%R
    with (- ((lat2 * (PI / 180) - lat1 * (PI / 180)) / 2))%R by lra.
  replace ((lon1 * (PI / 180) - lon2 * (PI / 180)) / 2)%R
    with (- ((lon2 * (PI / 180) - lon1 * (PI / 180)) / 2))%R by lra.
  rewrite !sin_neg. ring.
Qed.

Lemma haversine_a_same (lat lon : R) : haversine_a lat lon lat lon = 0%R.
Proof.
  unfold haversine_a. cbv zeta.
  replace ((lat * (PI / 180) - lat * (PI / 180)) / 2)%R with 0%R by lra.
  replace ((lon * (PI / 180) - lon * (PI / 180)) / 2)%R with 0%R by lra.
  rewrite sin_0. ring.
Qed.

Lemma real_sqrt_asin (a : R) :
  (0 <= a <= 1)%R →
  rbind (real_sqrt a) real_asin = Ok (asin (sqrt a)).
Proof.
  intros [H0 H1]. unfold real_sqrt.
  destruct (Rlt_dec a 0) as [? | _]; [lra |]. cbn. unfold real_asin.
  assert (0 <= sqrt a)%R as Hs0 by apply sqrt_pos.
  assert (sqrt a <= 1)%R as Hs1.
  { rewrite <- sqrt_1. apply sqrt_le_1_alt. exact H1. }
  destruct (Rlt_dec (sqrt a) (-1)); [lra |].
  destruct (Rlt_dec 1 (sqrt a)); [lra | done].
Qed.

(** Over the reals [haversine_distance] never leaves the domain of
    [sqrt] and [asin]: on two known locations it returns the great-circle
    distance. *)
Lemma haversine_distance_real (v : SolutionValidator R) (loc1 loc2 : string)
    (p1 p2 : Location R) :
  locations v !! StrKey loc1 = Some p1 →
  locations v !! StrKey loc2 = Some p2 →
  haversine_distance v loc1 loc2 = Ok (great_circle p1 p2).
Proof.
  intros H1 H2. unfold haversine_distance, lookup_location.
  rewrite H1, H2.
  set (a := haversine_a (latitude p1) (longitude p1)
                        (latitude p2) (longitude p2)).
  change (rbind (real_sqrt a)
            (λ r, rbind (real_asin r) (λ c, Ok (6371 * (2 * c))%R))
          = Ok (great_circle p1 p2)).
  assert (0 <= a <= 1)%R as Hb by apply haversine_a_bound.
  pose proof (real_sqrt_asin a Hb) as Hr. unfold rbind in Hr |- *.
  destruct (real_sqrt a) as [r | e]; [| discriminate].
  destruct (real_asin r) as [c | e]; [| discriminate].
  injection Hr as ->. reflexivity.
Qed.

(** ** The cache and the strategies *)

Section CacheFacts.
Context {num : Type} `{!FloatOps num} `{!External num}.
Implicit Types (v : SolutionValidator num) (st : State num).

Lemma grows_refl (m : string) st : grows m st st [].
Proof.
  split; try done.
  - by rewrite app_nil_r.
  - intros k Hk. by left.
Qed.

Lemma grows_trans (m : string) st1 st2 st3 (new1 new2 : list event) :
  grows m st1 st2 new1 → grows m st2 st3 new2 →
  grows m st1 st3 (new1 ++ new2).
Proof.
  intros [E1 C1 F1 W1 S1 K1] [E2 C2 F2 W2 S2 K2]. split.
  - by rewrite E2, E1, app_assoc.
  - by apply Forall_app.
  - congruence.
  - congruence.
  - by etrans.
  - intros k Hk. destruct (K2 k Hk) as [Hk2 | (a & b & Hin & ->)].
    + destruct (K1 k Hk2) as [? | (a & b & Hin & ->)]; [by left |].
      right. exists a, b. split; [| done]. apply elem_of_app. by left.
    + right. exists a, b. split; [| done]. apply elem_of_app. by right.
Qed.

Lemma osrm_distance_state v (a b : string) st r st1 :
  osrm_distance v a b st = (r, st1) →
  distance_cache st1 = distance_cache st ∧ cache_file st1 = cache_file st
  ∧ cache_file_writable st1 = cache_file_writable st
  ∧ events st1 = events st.
Proof.
  unfold osrm_distance. intros H.
  destruct (lookup_location v a); [| by simplify_eq].
  destruct (lookup_location v b); [| by simplify_eq].
  destruct (osrm_try _) as [[km |] | e]; by simplify_eq.
Qed.

(** A call of the strategy leaves the cache as it is, and is logged
    exactly when the method has one of the three names. *)
Lemma run_strategy_state v (a b : string) st r st1 :
  run_strategy v a b st = (r, st1) →
  distance_cache st1 = distance_cache st ∧ cache_file st1 = cache_file st
  ∧ cache_file_writable st1 = cache_file_writable st
  ∧ (events st1 = events st ++ [StrategyCall (distance_method v) a b]
     ∨ events st1 = events st
       ∧ r = Raise (ValueError ("Unknown distance method: "
                                +:+ distance_method v))).
Proof.
  unfold run_strategy. intros H.
  repeat case_bool_decide; simplify_eq; try (by auto).
  - apply osrm_distance_state in H as (-> & -> & -> & ->). cbn. auto.
  - cbn. auto 6.
Qed.

Lemma calculate_distance_hit v (a b : string) st (d : num) :
  distance_cache st !! cache_key a b (distance_method v) = Some d →
  calculate_distance v a b st = (Ok d, st).
Proof. intros H. unfold calculate_distance. by rewrite H. Qed.

Lemma calculate_distance_miss v (a b : string) st :
  distance_cache st !! cache_key a b (distance_method v) = None →
  calculate_distance v a b st
  = match run_strategy v a b st with
    | (Ok d, st1) =>
        (Ok d, set_cache (<[cache_key a b (distance_method v) := d]>
                            (distance_cache st1)) st1)
    | (Raise e, st1) => (Raise e, st1)
    end.
Proof. intros H. unfold calculate_distance. by rewrite H. Qed.

Lemma calculate_distance_grows v (a b : string) st r st1 :
  calculate_distance v a b st = (r, st1) →
  ∃ new, grows (distance_method v) st st1 new ∧ (length new ≤ 1)%nat.
Proof.
  unfold calculate_distance. intros H.
  destruct (distance_cache st !! _) as [d |] eqn:Hc.
  { simplify_eq. exists []. split; [apply grows_refl | cbn; lia]. }
  destruct (run_strategy v a b st) as [r1 st2] eqn:Hr.
  apply run_strategy_state in Hr as (Hc2 & Hf & Hw & He).
  assert (∃ new, events st2 = events st ++ new ∧ (length new ≤ 1)%nat
                 ∧ Forall (λ e, ∃ a b, e = StrategyCall (distance_method v) a b) new
                 ∧ (new = [] ∨ new = [StrategyCall (distance_method v) a b]))
    as (new & He' & Hlen & Hall & Hnew).
  { destruct He as [He | [He _]].
    - eexists. split; [exact He |]. split; [cbn; lia |]. split; [| by right].
      apply Forall_singleton. eauto.
    - exists []. rewrite app_nil_r. split; [done |]. split; [cbn; lia |].
      split; [constructor | by left]. }
  exists new. split; [| done].
  destruct r1 as [d | e]; simplify_eq.
  - split; cbn; try done.
    + rewrite Hc2. by apply insert_subseteq.
    + intros k Hk. rewrite Hc2 in Hk.
      destruct (decide (k = cache_key a b (distance_method v))) as [-> | Hne].
      * right. exists a, b. split; [| done].
        destruct He as [He | [_ ?]]; [| done].
        rewrite He in He'. apply app_inv_head in He'. subst new.
        apply list_elem_of_singleton. done.
      * left. by rewrite lookup_insert_ne in Hk.
  - split; cbn; try done.
    + by rewrite Hc2.
    + intros k Hk. left. by rewrite Hc2 in Hk.
Qed.

End CacheFacts.

(** ** The pass over the routes *)

Section PassFacts.
Context {num : Type} `{!FloatOps num} `{!External num}.
Implicit Types (v : SolutionValidator num) (st : State num).
Implicit Types (errs : list (error num)) (visited : gset string).

Lemma range_step_grows v (vid : string) (total : num) errs st
    (p : string * string) (total' : num) errs' st' :
  range_step v vid (total, errs, st) p = (total', errs', st') →
  ∃ new, grows (distance_method v) st st' new.
Proof.
  destruct p as [from_loc to_loc]. cbn. intros H.
  destruct (known v from_loc); cbn in H;
    [| simplify_eq; eexists; apply grows_refl].
  destruct (known v to_loc); cbn in H;
    [| simplify_eq; eexists; apply grows_refl].
  destruct (calculate_distance v from_loc to_loc st) as [r st1] eqn:Hc.
  apply calculate_distance_grows in Hc as (new & Hg & _).
  exists new. destruct r; by simplify_eq.
Qed.

Lemma range_loop_grows v (vid : string) (pairs : list (string * string))
    (total : num) errs st (total' : num) errs' st' :
  range_loop v vid pairs (total, errs, st) = (total', errs', st') →
  ∃ new, grows (distance_method v) st st' new.
Proof.
  unfold range_loop. revert total errs st.
  induction pairs as [| p pairs IH]; intros total errs st H;
    cbn [fold_left] in H.
  { simplify_eq. eexists. apply grows_refl. }
  destruct (range_step v vid (total, errs, st) p) as [[t1 e1] st1] eqn:Hs.
  apply range_step_grows in Hs as (new1 & Hg1).
  apply IH in H as (new2 & Hg2).
  eexists. eapply grows_trans; eassumption.
Qed.

Lemma check_range_grows v (r : Route) errs st errs' st' :
  check_range v r errs st = (errs', st') →
  ∃ new, grows (distance_method v) st st' new.
Proof.
  unfold check_range. intros H.
  destruct (range_loop _ _ _ _) as [[t1 e1] st1] eqn:Hl.
  apply range_loop_grows in Hl.
  destruct (fgt _ _); by simplify_eq.
Qed.

Lemma check_route_grows v (r : Route) errs visited st errs' visited' st' :
  check_route v r (errs, visited, st) = (errs', visited', st') →
  ∃ new, grows (distance_method v) st st' new.
Proof.
  unfold check_route. intros H.
  destruct (check_range _ _ _ _) as [e3 st3] eqn:Hr.
  apply check_range_grows in Hr.
  destruct (demand_loop _ _ _ _) as [[idx vis4] e4].
  by simplify_eq.
Qed.

Lemma validate_routes_grows v (rows : list SolutionRow)
    errs visited st (res : result (list (error num) * gset string)) st' :
  validate_routes v rows (errs, visited, st) = (res, st') →
  ∃ new, grows (distance_method v) st st' new.
Proof.
  revert errs visited st.
  induction rows as [| row rows IH]; intros errs visited st H;
    cbn [validate_routes] in H.
  { simplify_eq. eexists. apply grows_refl. }
  destruct (read_route v row) as [r | e].
  - destruct (check_route v r (errs, visited, st)) as [[e1 vis1] st1] eqn:Hc.
    apply check_route_grows in Hc as (new1 & Hg1).
    apply IH in H as (new2 & Hg2).
    eexists. eapply grows_trans; eassumption.
  - simplify_eq. eexists. apply grows_refl.
Qed.

(** What [validate_solution] returns when it returns: the errors of the
    routes, then the unvisited clients, after one write of the cache. *)
Lemma validate_solution_Ok v st (res : ValidationResult num) st' :
  validate_solution v st = (Ok res, st') →
  ∃ errs visited st1,
    validate_routes v (solution_df v) ([], ∅, st) = (Ok (errs, visited), st1)
    ∧ cache_file_writable st1 = true
    ∧ st' = set_cache_file (distance_cache st1) (log_event SaveCacheCall st1)
    ∧ errors res = errs ++ map NotVisited (missing_clients v visited)
    ∧ feasible res = Nat.eqb (length (errors res)) 0.
Proof.
  unfold validate_solution. intros H.
  destruct (validate_routes _ _ _) as [[[errs visited] | e] st1] eqn:Hv;
    [| discriminate].
  unfold save_cache in H.
  destruct (cache_file_writable st1) eqn:Hw; [| discriminate].
  simplify_eq. by exists errs, visited, st1.
Qed.

(** C1: the feasibility flag of a returned result is true exactly when
    its error list is empty. *)
Theorem validate_solution_consistent v st (res : ValidationResult num) st' :
  validate_solution v st = (Ok res, st') →
  (feasible res = true ↔ errors res = []).
Proof.
  intros H. apply validate_solution_Ok in H as (? & ? & ? & _ & _ & _ & _ & ->).
  destruct (errors res); cbn; split; done.
Qed.

(** C5: a pass that returns a result, feasible or not, has called
    [save_cache] exactly once, as its last counted effect; the cache file
    then holds exactly the in-memory cache, which contains every entry it
    held when the pass began and, besides those, only entries computed by
    strategy calls of this pass. *)
Theorem validate_solution_saves_snapshot v st
    (res : ValidationResult num) st' :
  validate_solution v st = (Ok res, st') →
  ∃ new,
    events st' = events st ++ (new ++ [SaveCacheCall])
    ∧ (SaveCacheCall ∉ new)
    ∧ cache_file st' = Some (distance_cache st')
    ∧ distance_cache st ⊆ distance_cache st'
    ∧ ∀ k, is_Some (distance_cache st' !! k) →
        is_Some (distance_cache st !! k)
        ∨ ∃ a b, StrategyCall (distance_method v) a b ∈ new
                 ∧ k = cache_key a b (distance_method v).
Proof.
  intros H.
  apply validate_solution_Ok in H as (errs & visited & st1 & Hv & _ & -> & _).
  apply validate_routes_grows in Hv as (new & [He Hc Hf Hw Hs Hk]).
  exists new. cbn. repeat split; try done.
  - by rewrite He, <- app_assoc.
  - intros Hin. rewrite Forall_forall in Hc.
    destruct (Hc _ Hin) as (a & b & ?). discriminate.
Qed.

Lemma ints_of_strs_Ok (pieces : list string) :
  Forall (λ p, is_Some (py_int p)) pieces →
  ∃ ns, ints_of_strs pieces = Ok ns.
Proof.
  induction 1 as [| p pieces [n Hn] _ [ns IH]]; cbn; [by eexists |].
  unfold int_of_str. rewrite Hn. cbn. rewrite IH. cbn. by eexists.
Qed.

Lemma read_route_Ok v (row : SolutionRow) :
  row_readable v row → ∃ r, read_route v row = Ok r.
Proof.
  intros [Hd (n & Hn & [spec Hs])]. unfold read_route.
  destruct (ints_of_strs_Ok _ Hd) as [ns ->]. cbn.
  unfold int_of_str. rewrite Hn. cbn. rewrite Hs. cbn. by eexists.
Qed.

Lemma read_routes_Ok v (rows : list SolutionRow) :
  Forall (row_readable v) rows →
  ∃ routes, Forall2 (λ row r, read_route v row = Ok r) rows routes.
Proof.
  induction 1 as [| row rows Hr _ [routes IH]]; [by exists [] |].
  destruct (read_route_Ok v row Hr) as [r Hrow].
  exists (r :: routes). by constructor.
Qed.

(** When every row can be read, the loop checks every route in turn. *)
Lemma validate_routes_all v (rows : list SolutionRow) (routes : list Route)
    (acc : list (error num) * gset string * State num) :
  Forall2 (λ row r, read_route v row = Ok r) rows routes →
  validate_routes v rows acc
  = (Ok ((check_routes v routes acc).1.1, (check_routes v routes acc).1.2),
     (check_routes v routes acc).2).
Proof.
  intros Hall. revert acc.
  induction Hall as [| row r rows routes Hrow _ IH]; intros acc; [done |].
  cbn [validate_routes]. rewrite Hrow. apply IH.
Qed.

(** C2 (amended): when every row can be read (its numerals parse and its
    vehicle is in the fleet) and the cache file can be written,
    [validate_solution] raises nothing, whatever the distance method is
    called: every route is checked in turn, and the result carries the
    errors of all the routes followed by the unvisited clients. *)
Theorem validate_solution_returns v st :
  Forall (row_readable v) (solution_df v) →
  cache_file_writable st = true →
  ∃ routes res st',
    Forall2 (λ row r, read_route v row = Ok r) (solution_df v) routes
    ∧ validate_solution v st = (Ok res, st')
    ∧ errors res
      = (check_routes v routes ([], ∅, st)).1.1
        ++ map NotVisited
             (missing_clients v (check_routes v routes ([], ∅, st)).1.2).
Proof.
  intros Hrows Hw.
  destruct (read_routes_Ok v _ Hrows) as [routes Hall].
  pose proof (validate_routes_all v _ routes ([], ∅, st) Hall) as Hv.
  destruct (validate_routes_grows v _ _ _ _ _ _ Hv) as (new & Hg).
  exists routes. unfold validate_solution. rewrite Hv.
  unfold save_cache. rewrite (grows_writable _ _ _ _ Hg), Hw.
  eexists _, _. split; [exact Hall |]. split; reflexivity.
Qed.

End PassFacts.

(** ** Cache keys *)

Lemma append_cons (c : ascii) (s t : string) :
  String c s +:+ t = String c (s +:+ t).
Proof. reflexivity. Qed.

Lemma append_nil (t : string) : EmptyString +:+ t = t.
Proof. reflexivity. Qed.

Lemma has_underscore_app (s t : string) :
  has_underscore (s +:+ t) = has_underscore s || has_underscore t.
Proof.
  induction s as [| c s IH]; [done |].
  rewrite append_cons. cbn [has_underscore]. rewrite IH. by rewrite orb_assoc.
Qed.

Lemma string_app_inv_head (s t u : string) : s +:+ t = s +:+ u → t = u.
Proof.
  induction s as [| c s IH]; intros H; [done |].
  rewrite !append_cons in H. injection H. auto.
Qed.

(** Two strings without the separator, each followed by the separator:
    the first separator of the whole tells where the first string ends. *)
Lemma separator_split (a b x y : string) :
  has_underscore a = false → has_underscore b = false →
  a +:+ String "_" x = b +:+ String "_" y → a = b ∧ x = y.
Proof.
  revert b. induction a as [| c a IH]; intros [| c' b] Ha Hb H;
    rewrite ?append_cons, ?append_nil in H; cbn [has_underscore] in *.
  - by injection H.
  - injection H as <- _. by rewrite Ascii.eqb_refl in Hb.
  - injection H as -> _. by rewrite Ascii.eqb_refl in Ha.
  - injection H as -> H.
    apply orb_false_elim in Ha as [_ Ha]. apply orb_false_elim in Hb as [_ Hb].
    destruct (IH b Ha Hb H) as [-> ->]. done.
Qed.

(** On identifiers without the separator, the key determines the ordered
    pair and the method. *)
Lemma cache_key_inj (a b m a' b' m' : string) :
  has_underscore a = false → has_underscore b = false →
  has_underscore a' = false → has_underscore b' = false →
  cache_key a b m = cache_key a' b' m' → a = a' ∧ b = b' ∧ m = m'.
Proof.
  unfold cache_key. intros Ha Hb Ha' Hb' H.
  rewrite !(append_cons "_" EmptyString), !append_nil in H.
  apply separator_split in H as [-> H]; [| done..].
  apply separator_split in H as [-> ->]; done.
Qed.

Lemma cache_key_method_inj (a b m m' : string) :
  cache_key a b m = cache_key a b m' → m = m'.
Proof.
  unfold cache_key. intros H.
  apply string_app_inv_head in H. rewrite !append_cons, !append_nil in H.
  injection H as H.
  apply string_app_inv_head in H. by injection H.
Qed.

Lemma uint_str_no_underscore (d : Decimal.uint) :
  has_underscore (NilEmpty.string_of_uint d) = false.
Proof. induction d; cbn; done. Qed.

Lemma int_str_no_underscore (n : Z) : has_underscore (int_str n) = false.
Proof.
  unfold int_str. destruct (Z.to_int n) as [d | d]; cbn.
  - destruct d; cbn; try done; apply uint_str_no_underscore.
  - destruct d; cbn; try done; apply uint_str_no_underscore.
Qed.

Lemma zero_pad_no_underscore (width : nat) (digits : string) :
  has_underscore digits = false →
  has_underscore (zero_pad width digits) = false.
Proof.
  intros H. unfold zero_pad. rewrite has_underscore_app, H, orb_false_r.
  induction (width - String.length digits)%nat as [| k IH]; cbn; [done |].
  destruct (replicate k "0"%string) eqn:Hr; cbn in *; [done |].
  rewrite has_underscore_app. cbn. exact IH.
Qed.

Lemma client_key_no_underscore (id : Z) :
  has_underscore (client_key id) = false.
Proof.
  unfold client_key, fmt_03d. cbn.
  destruct (id <? 0); cbn; apply zero_pad_no_underscore, int_str_no_underscore.
Qed.

Section RegistryFacts.
Context {num : Type}.

(** Every string key of the registry built by [__init__] is "CDA" or
    the key of a client, and has no separator in it. *)
Lemma build_locations_keys (depots : list (DepotRow num))
    (clients : list (ClientRow num)) (s : string) :
  is_Some (build_locations depots clients !! StrKey s) →
  has_underscore s = false.
Proof.
  unfold build_locations.
  assert (∀ locs : gmap loc_key (Location num),
            (∀ s, is_Some (locs !! StrKey s) → has_underscore s = false) →
            ∀ s, is_Some (fold_left add_depot depots locs !! StrKey s) →
                 has_underscore s = false) as Hdepots.
  { induction depots as [| d depots IH]; intros locs Hlocs; [done |].
    cbn [fold_left]. apply IH. intros s' Hs'. unfold add_depot in Hs'.
    case_bool_decide.
    - destruct (decide (s' = "CDA")) as [-> | Hne]; [done |].
      rewrite lookup_insert_ne in Hs' by congruence.
      rewrite lookup_insert_ne in Hs' by done. by apply Hlocs.
    - rewrite lookup_insert_ne in Hs' by done. by apply Hlocs. }
  assert (∀ locs : gmap loc_key (Location num),
            (∀ s, is_Some (locs !! StrKey s) → has_underscore s = false) →
            ∀ s, is_Some (fold_left add_client clients locs !! StrKey s) →
                 has_underscore s = false) as Hclients.
  { induction clients as [| c clients IH]; intros locs Hlocs; [done |].
    cbn [fold_left]. apply IH. intros s' Hs'. unfold add_client in Hs'.
    destruct (decide (s' = client_key (ClientID c))) as [-> | Hne].
    - apply client_key_no_underscore.
    - rewrite lookup_insert_ne in Hs' by congruence. by apply Hlocs. }
  revert s. apply Hclients, Hdepots.
  intros s Hs. rewrite lookup_empty in Hs. by destruct Hs.
Qed.

End RegistryFacts.

Section KeyFacts.
Context {num : Type} `{!FloatOps num} `{!External num}.
Implicit Types (v : SolutionValidator num) (st : State num).

(** [calculate_distance] writes under its own key only. *)
Lemma calculate_distance_other_keys v (a b : string) st
    (r : result num) st1 (k : string) :
  calculate_distance v a b st = (r, st1) →
  k ≠ cache_key a b (distance_method v) →
  distance_cache st1 !! k = distance_cache st !! k.
Proof.
  unfold calculate_distance. intros H Hk.
  destruct (distance_cache st !! _) as [d |]; [by simplify_eq |].
  destruct (run_strategy v a b st) as [r1 st2] eqn:Hr.
  apply run_strategy_state in Hr as (Hc & _).
  destruct r1; simplify_eq; cbn; [| by rewrite Hc].
  rewrite lookup_insert_ne by done. by rewrite Hc.
Qed.

(** C8: for two different known locations of a registry built by
    [__init__], the key of (a, b) differs from the key of (b, a), and the
    keys of one pair under two method names differ; so a call for (a, b)
    under one method neither reads nor changes the entry of (b, a), nor
    the entry of (a, b) under another method. *)
Theorem cache_key_directional_scoped (method : string)
    (vehicles : list VehicleRow) (clients : list (ClientRow num))
    (depots : list (DepotRow num)) (solution : list SolutionRow)
    (a b : string) :
  let v := init method vehicles clients depots solution in
  is_Some (locations v !! StrKey a) →
  is_Some (locations v !! StrKey b) →
  a ≠ b →
  (∀ m, cache_key a b m ≠ cache_key b a m)
  ∧ (∀ m1 m2, m1 ≠ m2 → cache_key a b m1 ≠ cache_key a b m2)
  ∧ ∀ st (r : result num) st1,
      calculate_distance v a b st = (r, st1) →
      distance_cache st1 !! cache_key b a method
      = distance_cache st !! cache_key b a method
      ∧ ∀ m, m ≠ method →
          distance_cache st1 !! cache_key a b m
          = distance_cache st !! cache_key a b m.
Proof.
  intros v Ha Hb Hab.
  apply build_locations_keys in Ha, Hb.
  assert (∀ m, cache_key a b m ≠ cache_key b a m) as Hdir.
  { intros m Heq. apply cache_key_inj in Heq as (? & _); done. }
  assert (∀ m1 m2, m1 ≠ m2 → cache_key a b m1 ≠ cache_key a b m2) as Hm.
  { intros m1 m2 Hne Heq. by apply cache_key_method_inj in Heq. }
  split; [exact Hdir |]. split; [exact Hm |].
  intros st r st1 Hcall. split.
  - eapply calculate_distance_other_keys; [exact Hcall |].
    intros Heq. by apply (Hdir method).
  - intros m Hne. eapply calculate_distance_other_keys; [exact Hcall |].
    by apply Hm.
Qed.

End KeyFacts.




(** ** The routing-service strategy *)

Section OsrmFacts.
Context {num : Type} `{!FloatOps num} `{!External num}.
Implicit Types (v : SolutionValidator num) (st : State num).




End OsrmFacts.

(** ** The great-circle distance over the reals *)

Lemma great_circle_sym (p1 p2 : Location R) :
  great_circle p1 p2 = great_circle p2 p1.
Proof. unfold great_circle. by rewrite haversine_a_sym. Qed.

Lemma great_circle_same (p : Location R) : great_circle p p = 0%R.
Proof.
  unfold great_circle. rewrite haversine_a_same, sqrt_0, asin_0. lra.
Qed.


(** ** The range check and unknown locations *)

Section RangeFacts.
Context {num : Type} `{!FloatOps num} `{!External num}.
Implicit Types (v : SolutionValidator num) (st : State num).
Implicit Types (errs : list (error num)).

Lemma invalid_locations_app errs1 errs2 :
  invalid_locations (errs1 ++ errs2)
  = invalid_locations errs1 ++ invalid_locations errs2.
Proof. apply omap_app. Qed.

(** A pair with an unknown endpoint adds one error, for the endpoint the
    guards report, and changes neither the total nor the state. *)
Lemma range_step_incomplete v (vid : string) (total : num) errs st
    (p : string * string) (loc : string) :
  reported_endpoint v p = Some loc →
  range_step v vid (total, errs, st) p
  = (total, errs ++ [InvalidLocation vid loc], st).
Proof.
  destruct p as [from_loc to_loc]. unfold reported_endpoint, range_step.
  cbn. intros H.
  destruct (known v from_loc); cbn in *; [| by simplify_eq].
  destruct (known v to_loc); cbn in *; by simplify_eq.
Qed.

(** A pair with two known endpoints adds no "invalid location" error,
    and what it does to the total and the state does not depend on the
    errors found so far. *)
Lemma range_step_complete v (vid : string) (total : num) errs1 errs2 st
    (p : string * string) :
  reported_endpoint v p = None →
  ∃ (total' : num) errs1' errs2' st',
    range_step v vid (total, errs1, st) p = (total', errs1', st')
    ∧ range_step v vid (total, errs2, st) p = (total', errs2', st')
    ∧ invalid_locations errs1' = invalid_locations errs1.
Proof.
  destruct p as [from_loc to_loc]. unfold reported_endpoint, range_step.
  cbn. intros H.
  destruct (known v from_loc); cbn in *; [| done].
  destruct (known v to_loc); cbn in *; [| done].
  destruct (calculate_distance v from_loc to_loc st) as [[d | e] st1].
  - by eexists _, _, _, _.
  - eexists _, _, _, _. split; [done |]. split; [done |].
    rewrite invalid_locations_app. cbn. by rewrite app_nil_r.
Qed.

Lemma range_loop_skips v (vid : string) (pairs : list (string * string))
    (total : num) errs1 errs2 st :
  ∃ (total' : num) errs1' errs2' st',
    range_loop v vid pairs (total, errs1, st) = (total', errs1', st')
    ∧ range_loop v vid
        (filter (λ p, reported_endpoint v p = None) pairs)
        (total, errs2, st) = (total', errs2', st')
    ∧ invalid_locations errs1'
      = invalid_locations errs1
        ++ omap (λ p, pair vid <$> reported_endpoint v p) pairs.
Proof.
  unfold range_loop. revert total errs1 errs2 st.
  induction pairs as [| p pairs IH]; intros total errs1 errs2 st.
  { eexists _, _, _, _. cbn. by rewrite app_nil_r. }
  cbn [fold_left omap]. rewrite filter_cons.
  destruct (reported_endpoint v p) as [loc |] eqn:Hp.
  - rewrite (range_step_incomplete v vid total errs1 st p loc Hp).
    rewrite decide_False by done.
    destruct (IH total (errs1 ++ [InvalidLocation vid loc]) errs2 st)
      as (t' & e1' & e2' & st' & H1 & H2 & H3).
    exists t', e1', e2', st'. split; [done |]. split; [done |].
    rewrite H3, invalid_locations_app. cbn. rewrite Hp. cbn.
    by rewrite <- app_assoc.
  - rewrite decide_True by done. cbn [fold_left].
    destruct (range_step_complete v vid total errs1 errs2 st p Hp)
      as (t1 & e1 & e2 & st1 & -> & -> & Hinv).
    destruct (IH t1 e1 e2 st1) as (t' & e1' & e2' & st' & H1 & H2 & H3).
    exists t', e1', e2', st'. split; [done |]. split; [done |].
    rewrite H3, Hinv. cbn. by rewrite Hp.
Qed.


End RangeFacts.

(** ** Demand lists and the coverage check *)

Section DemandFacts.
Context {num : Type} `{!FloatOps num} `{!External num}.
Implicit Types (v : SolutionValidator num) (st : State num).
Implicit Types (errs : list (error num)) (visited : gset string).

Lemma range_loop_prefix v (vid : string) (pairs : list (string * string))
    (total : num) errs st :
  errs `prefix_of` (range_loop v vid pairs (total, errs, st)).1.2.
Proof.
  unfold range_loop. revert total errs st.
  induction pairs as [| [from_loc to_loc] pairs IH]; intros total errs st;
    [done |].
  cbn [fold_left]. unfold range_step at 2.
  destruct (negb (known v from_loc)).
  { etrans; [| apply IH]. by apply prefix_app_r. }
  destruct (negb (known v to_loc)).
  { etrans; [| apply IH]. by apply prefix_app_r. }
  destruct (calculate_distance v from_loc to_loc st) as [[d | e] st1].
  - apply IH.
  - etrans; [| apply IH]. by apply prefix_app_r.
Qed.

Lemma check_range_prefix v (r : Route) errs st :
  errs `prefix_of` (check_range v r errs st).1.
Proof.
  unfold check_range.
  pose proof (range_loop_prefix v (vehicle_id r)
                (consecutive_pairs (route_sequence r)) (of_int 0) errs st) as H.
  destruct (range_loop _ _ _ _) as [[t e1] st1]. cbn in H.
  destruct (fgt _ _); cbn; [| done]. etrans; [exact H |]. by apply prefix_app_r.
Qed.

(** The loop of check 4, started at index [idx]: the client stops that
    still find a demand are added to the visited set, the others get a
    "missing demand value" error. *)
Lemma demand_loop_spec v (r : Route) (seq : list string) (idx : nat)
    visited errs :
  let clients := filter (λ loc, is_client_stop loc = true) seq in
  let n := (length (demands_satisfied r) - idx)%nat in
  ∃ (idx' : nat) visited' errs',
    demand_loop v r seq (idx, visited, errs) = (idx', visited', errs')
    ∧ errs `prefix_of` errs'
    ∧ (∀ c, c ∈ visited' ↔ c ∈ take n clients ∨ c ∈ visited)
    ∧ (∀ c, c ∈ drop n clients → MissingDemand (vehicle_id r) c ∈ errs').
Proof.
  unfold demand_loop. revert idx visited errs.
  induction seq as [| loc seq IH]; intros idx visited errs.
  { eexists _, _, _. split; [done |]. split; [done |]. cbn.
    rewrite take_nil, drop_nil. split; [| by intros c ?%elem_of_nil].
    intros c. split; [by right | intros [?%elem_of_nil | ?]; done]. }
  cbn [fold_left]. rewrite filter_cons. unfold demand_step at 2.
  destruct (is_client_stop loc) eqn:Hloc.
  2: { rewrite decide_False by done. apply IH. }
  rewrite decide_True by done.
  destruct (demands_satisfied r !! idx) as [actual |] eqn:Hd.
  - apply lookup_lt_Some in Hd.
    set (errs1 := if bool_decide _ then _ else errs).
    assert (errs `prefix_of` errs1) as Hpre.
    { unfold errs1. case_bool_decide; [by apply prefix_app_r | done]. }
    destruct (IH (S idx) ({[loc]} ∪ visited) errs1)
      as (idx' & vis' & errs' & -> & Hp & Hv & Hm).
    eexists _, _, _. split; [done |]. split; [by etrans |].
    replace (length (demands_satisfied r) - idx)%nat
      with (S (length (demands_satisfied r) - S idx)) by lia.
    cbn [take drop]. split; [| exact Hm].
    intros c. rewrite Hv, elem_of_cons, elem_of_union, elem_of_singleton.
    tauto.
  - apply lookup_ge_None in Hd.
    destruct (IH idx visited (errs ++ [MissingDemand (vehicle_id r) loc]))
      as (idx' & vis' & errs' & -> & Hp & Hv & Hm).
    eexists _, _, _. split; [done |].
    split; [etrans; [| exact Hp]; by apply prefix_app_r |].
    replace (length (demands_satisfied r) - idx)%nat with 0%nat in * by lia.
    rewrite take_0 in *. rewrite drop_0 in *. split; [exact Hv |].
    intros c [-> | Hc]%elem_of_cons; [| by apply Hm].
    eapply elem_of_prefix; [| exact Hp]. apply elem_of_app. right.
    by apply list_elem_of_singleton.
Qed.

Lemma check_route_spec v (r : Route) errs visited st :
  ∃ errs' visited' st',
    check_route v r (errs, visited, st) = (errs', visited', st')
    ∧ errs `prefix_of` errs'
    ∧ (∀ c, c ∈ visited' ↔ c ∈ served_stops r ∨ c ∈ visited)
    ∧ (∀ c, c ∈ unserved_stops r → MissingDemand (vehicle_id r) c ∈ errs').
Proof.
  unfold check_route.
  set (errs1 := if starts_and_ends_at _ _ then errs else _).
  set (errs2 := if bool_decide (initial_load r > _) then _ else errs1).
  assert (errs `prefix_of` errs2) as Hpre2.
  { unfold errs2, errs1.
    destruct (starts_and_ends_at _ _); case_bool_decide; solve_prefix. }
  pose proof (check_range_prefix v r errs2 st) as Hpre3.
  destruct (check_range v r errs2 st) as [errs3 st3]. cbn in Hpre3.
  destruct (demand_loop_spec v r (route_sequence r) 0 visited errs3)
    as (idx & vis4 & errs4 & -> & Hpre4 & Hv & Hm).
  rewrite Nat.sub_0_r in Hv, Hm.
  eexists _, _, _. split; [done |].
  assert (∀ errs6, errs4 `prefix_of` errs6 →
            errs `prefix_of` errs6
            ∧ ∀ c, c ∈ unserved_stops r →
                   MissingDemand (vehicle_id r) c ∈ errs6) as Hend.
  { intros errs6 Hpre6. split.
    - etrans; [exact Hpre2 |]. etrans; [exact Hpre3 |]. by etrans.
    - intros c Hc. eapply elem_of_prefix; [| exact Hpre6]. by apply Hm. }
  destruct (Hend (
    let errs5 :=
      if bool_decide (length (route_clients r)
                      ≠ length (remove_dups (route_clients r)))
      then errs4 ++ [DuplicateVisits (vehicle_id r)] else errs4 in
    if bool_decide (Z.of_nat (length (route_clients r)) ≠ clients_served r)
    then errs5 ++ [ServedMismatch (vehicle_id r)
                     (length (route_clients r)) (clients_served r)]
    else errs5)) as [Hp6 Hm6].
  { cbv zeta. repeat case_bool_decide; solve_prefix. }
  split; [exact Hp6 |]. split; [exact Hv | exact Hm6].
Qed.

Lemma check_routes_spec v (routes : list Route) errs visited st :
  ∃ errs' visited' st',
    check_routes v routes (errs, visited, st) = (errs', visited', st')
    ∧ errs `prefix_of` errs'
    ∧ (∀ c, c ∈ visited' ↔
            (∃ r, r ∈ routes ∧ c ∈ served_stops r) ∨ c ∈ visited)
    ∧ (∀ r c, r ∈ routes → c ∈ unserved_stops r →
              MissingDemand (vehicle_id r) c ∈ errs').
Proof.
  unfold check_routes. revert errs visited st.
  induction routes as [| r routes IH]; intros errs visited st.
  { eexists _, _, _. split; [done |]. split; [done |]. split.
    - intros c. split; [by right |].
      intros [(r & ?%elem_of_nil & _) | ?]; done.
    - by intros r c ?%elem_of_nil. }
  cbn [fold_left].
  destruct (check_route_spec v r errs visited st)
    as (e1 & vis1 & st1 & -> & Hp1 & Hv1 & Hm1).
  destruct (IH e1 vis1 st1) as (e2 & vis2 & st2 & -> & Hp2 & Hv2 & Hm2).
  eexists _, _, _. split; [done |]. split; [by etrans |]. split.
  - intros c. rewrite Hv2, Hv1. split.
    + intros [(r' & Hr' & Hc) | [Hc | Hc]].
      * left. exists r'. split; [by apply elem_of_cons; right | done].
      * left. exists r. split; [by apply elem_of_cons; left | done].
      * by right.
    + intros [(r' & [-> | Hr']%elem_of_cons & Hc) | Hc].
      * right. by left.
      * left. by exists r'.
      * right. by right.
  - intros r' c [-> | Hr']%elem_of_cons Hc.
    + eapply elem_of_prefix; [| exact Hp2]. by apply Hm1.
    + by eapply Hm2.
Qed.

(** C10 (amended): a client stop that comes after the route's demand
    list is exhausted gets a "missing demand value" error and is not
    added to the visited set by that stop; when it is a client of the data
    set and no stop of any route (an earlier stop of the same route
    included) finds a demand entry for it, it is also reported as not
    visited. *)
Theorem unserved_stop_not_visited v st (res : ValidationResult num) st'
    (routes : list Route) (r : Route) (c : string) :
  Forall2 (λ row r, read_route v row = Ok r) (solution_df v) routes →
  validate_solution v st = (Ok res, st') →
  r ∈ routes →
  c ∈ unserved_stops r →
  MissingDemand (vehicle_id r) c ∈ errors res
  ∧ (is_Some (client_demands v !! c) →
     (∀ r', r' ∈ routes → c ∉ served_stops r') →
     NotVisited c ∈ errors res).
Proof.
  intros Hall Hrun Hr Hc.
  apply validate_solution_Ok in Hrun
    as (errs & visited & st1 & Hv & _ & _ & -> & _).
  rewrite (validate_routes_all v _ routes _ Hall) in Hv.
  destruct (check_routes_spec v routes [] ∅ st)
    as (e' & vis' & st2 & Heq & _ & Hvis & Hmiss).
  rewrite Heq in Hv. cbn in Hv. simplify_eq. split.
  - apply elem_of_app. left. by eapply Hmiss.
  - intros Hknown Hnever. apply elem_of_app. right.
    apply list_elem_of_fmap. exists c. split; [done |].
    unfold missing_clients. apply elem_of_elements, elem_of_difference.
    split; [by apply elem_of_dom |].
    rewrite Hvis. intros [(r' & Hr' & Hs) | ?%elem_of_empty]; [| done].
    by apply (Hnever r').
Qed.

End DemandFacts.

(** ** The frame and its rows of text *)

Section FrameFacts.
Context {num : Type} `{!FloatOps num} `{!External num}.
Implicit Types (v : SolutionValidator num) (st : State num).





End FrameFacts.

(** ** The end-to-end test, over the reals *)

Lemma base_leg_value : base_leg = (6371 * (2 * (PI / 360)))%R.
Proof.
  unfold base_leg, great_circle, haversine_a. cbn.
  replace ((0 * (PI / 180) - 0 * (PI / 180)) / 2)%R with 0%R by lra.
  replace ((1 * (PI / 180) - 0 * (PI / 180)) / 2)%R with (PI / 360)%R by lra.
  replace (0 * (PI / 180))%R with 0%R by lra.
  rewrite sin_0, cos_0.
  pose proof PI_RGT_0 as Hpi. pose proof PI_4 as Hpi4.
  assert (0 <= sin (PI / 360))%R as Hs by (apply sin_ge_0; lra).
  replace (0 * 0 + 1 * 1 * (sin (PI / 360) * sin (PI / 360)))%R
    with (sin (PI / 360) * sin (PI / 360))%R by lra.
  rewrite sqrt_square by exact Hs.
  rewrite asin_sin by lra. reflexivity.
Qed.

Lemma base_leg_bound : (0 <= base_leg <= 142)%R.
Proof.
  rewrite base_leg_value.
  pose proof PI_RGT_0 as Hpi. pose proof PI_4 as Hpi4. lra.
Qed.

Lemma base_leg_back : great_circle client_location depot_location = base_leg.
Proof. apply great_circle_sym. Qed.

Section RealRuns.
Context `{E : !External R}.
Implicit Types (v : SolutionValidator R) (st : State R).

(** A miss under the great-circle method computes the distance of the
    pair, logs the call and stores the value. *)
Lemma calculate_distance_haversine v (a b : string) (p1 p2 : Location R) st :
  distance_method v = "haversine"%string →
  locations v !! StrKey a = Some p1 →
  locations v !! StrKey b = Some p2 →
  distance_cache st !! cache_key a b "haversine" = None →
  calculate_distance v a b st
  = (Ok (great_circle p1 p2),
     set_cache (<[cache_key a b "haversine" := great_circle p1 p2]>
                  (distance_cache st))
               (log_event (StrategyCall "haversine" a b) st)).
Proof.
  intros Hm Ha Hb Hc. rewrite calculate_distance_miss by (by rewrite Hm).
  unfold run_strategy. rewrite Hm. rewrite bool_decide_eq_true_2 by done.
  by rewrite (haversine_distance_real v a b p1 p2 Ha Hb).
Qed.

Lemma range_step_haversine v (vid a b : string) (p1 p2 : Location R)
    (total : R) (errs : list (error R)) st :
  distance_method v = "haversine"%string →
  locations v !! StrKey a = Some p1 →
  locations v !! StrKey b = Some p2 →
  distance_cache st !! cache_key a b "haversine" = None →
  range_step v vid (total, errs, st) (a, b)
  = ((total + great_circle p1 p2)%R, errs,
     set_cache (<[cache_key a b "haversine" := great_circle p1 p2]>
                  (distance_cache st))
               (log_event (StrategyCall "haversine" a b) st)).
Proof.
  intros Hm Ha Hb Hc. unfold range_step, known.
  rewrite Ha, Hb. rewrite !bool_decide_eq_true_2 by done. cbn [negb].
  by rewrite (calculate_distance_haversine v a b p1 p2 st Hm Ha Hb Hc).
Qed.

(** A pass over a single readable row. *)
Lemma validate_solution_single v st (row : SolutionRow) (r : Route) :
  solution_df v = [row] →
  read_route v row = Ok r →
  cache_file_writable st = true →
  validate_solution v st
  = (Ok (let errs := (check_route v r ([], ∅, st)).1.1
                     ++ map NotVisited
                          (missing_clients v (check_route v r ([], ∅, st)).1.2)
         in {| feasible := Nat.eqb (length errs) 0; errors := errs |}),
     saved (check_route v r ([], ∅, st)).2).
Proof.
  intros Hrows Hrow Hw. unfold validate_solution. rewrite Hrows.
  cbn [validate_routes]. rewrite Hrow.
  destruct (check_route v r ([], ∅, st)) as [[errs visited] st1] eqn:Hc.
  apply check_route_grows in Hc as (new & Hg).
  cbn. unfold save_cache. by rewrite (grows_writable _ _ _ _ Hg), Hw.
Qed.

Lemma read_base_row (method sequence : string) (rows : list SolutionRow) :
  py_int "1" = Some 1 → py_int "5" = Some 5 →
  read_route (base_case_with method rows) (base_row sequence "5")
  = Ok (base_route (split "-" sequence)).
Proof.
  intros H1 H5. unfold read_route.
  change (split "-" (DemandsSatisfied (base_row sequence "5")))
    with ["5"%string].
  change (remove_VEH (VehicleId (base_row sequence "5"))) with "1"%string.
  cbn [ints_of_strs]. unfold int_of_str. rewrite H5, H1. reflexivity.
Qed.

(** The range check of the test route on an empty cache: two legs are
    computed and their sum is within the range. *)
Lemma check_range_base (rows : list SolutionRow) (errs : list (error R)) st :
  distance_cache st = ∅ →
  check_range (base_case_with "haversine" rows)
    (base_route ["CDA"; "C001"; "CDA"]%string) errs st
  = (errs, after_leg "C001" "CDA" base_leg
             (after_leg "CDA" "C001" base_leg st)).
Proof.
  intros Hc. unfold check_range, range_loop. cbn [consecutive_pairs
    route_sequence base_route zip zip_with tail fold_left vehicle_id].
  rewrite (range_step_haversine _ _ "CDA" "C001" depot_location client_location)
    by (try reflexivity; by rewrite Hc).
  rewrite (range_step_haversine _ _ "C001" "CDA" client_location depot_location)
    by (try reflexivity; cbn; rewrite Hc; reflexivity).
  fold base_leg. rewrite base_leg_back.
  cbn [fgt real_ops of_int vehicle_spec base_route range].
  pose proof base_leg_bound as Hb.
  rewrite Rgtb_false by lra. reflexivity.
Qed.

(** The same route with the client twice in a row: three legs, the
    middle one of length 0. *)
Lemma check_range_twice (rows : list SolutionRow) (errs : list (error R)) st :
  distance_cache st = ∅ →
  check_range (base_case_with "haversine" rows)
    (base_route ["CDA"; "C001"; "C001"; "CDA"]%string) errs st
  = (errs, after_leg "C001" "CDA" base_leg
             (after_leg "C001" "C001" 0%R
                (after_leg "CDA" "C001" base_leg st))).
Proof.
  intros Hc. unfold check_range, range_loop. cbn [consecutive_pairs
    route_sequence base_route zip zip_with tail fold_left vehicle_id].
  rewrite (range_step_haversine _ _ "CDA" "C001" depot_location client_location)
    by (try reflexivity; by rewrite Hc).
  rewrite (range_step_haversine _ _ "C001" "C001" client_location client_location)
    by (try reflexivity; cbn; rewrite Hc; reflexivity).
  rewrite (range_step_haversine _ _ "C001" "CDA" client_location depot_location)
    by (try reflexivity; cbn; rewrite Hc; reflexivity).
  fold base_leg. rewrite base_leg_back, great_circle_same.
  cbn [fgt real_ops of_int vehicle_spec base_route range].
  pose proof base_leg_bound as Hb.
  rewrite Rgtb_false by lra. reflexivity.
Qed.

(** Under a method name that is none of the three, each leg of the test
    route becomes a "distance calculation error"; nothing is raised. *)
Lemma check_range_unknown_method (rows : list SolutionRow)
    (errs : list (error R)) st :
  distance_cache st = ∅ →
  check_range (base_case_with "foo" rows)
    (base_route ["CDA"; "C001"; "CDA"]%string) errs st
  = (errs ++ [DistanceError "VEH1"
                (ValueError "Unknown distance method: foo")]
          ++ [DistanceError "VEH1"
                (ValueError "Unknown distance method: foo")], st).
Proof.
  intros Hc. unfold check_range, range_loop. cbn [consecutive_pairs
    route_sequence base_route zip zip_with tail fold_left vehicle_id].
  assert (∀ (a b : string) (total : R) (es : list (error R)),
            known (base_case_with "foo" rows) a = true →
            known (base_case_with "foo" rows) b = true →
            range_step (base_case_with "foo" rows) "VEH1" (total, es, st) (a, b)
            = (total, es ++ [DistanceError "VEH1"
                 (ValueError "Unknown distance method: foo")], st)) as Hstep.
  { intros a b total es Ha Hb. unfold range_step. rewrite Ha, Hb. cbn [negb].
    rewrite calculate_distance_miss by (by rewrite Hc). reflexivity. }
  rewrite !Hstep by reflexivity.
  cbn [fgt real_ops of_int vehicle_spec base_route range].
  rewrite Rgtb_false by lra. by rewrite <- app_assoc.
Qed.

(** A route of two stops with an unknown endpoint: the only pair adds
    one error, for the endpoint the guards report. *)
Lemma check_range_one_pair (rows : list SolutionRow) (x y loc : string)
    (errs : list (error R)) st :
  reported_endpoint (base_case_with "haversine" rows) (x, y) = Some loc →
  check_range (base_case_with "haversine" rows) (base_route [x; y]) errs st
  = (errs ++ [InvalidLocation "VEH1" loc], st).
Proof.
  intros Hp. unfold check_range, range_loop. cbn [consecutive_pairs
    route_sequence base_route zip zip_with tail fold_left vehicle_id].
  rewrite (range_step_incomplete _ _ _ _ _ _ loc) by exact Hp.
  cbn [fgt real_ops of_int vehicle_spec base_route range].
  by rewrite Rgtb_false by lra.
Qed.

(** The whole pass over the test data set, from an empty cache. *)
Lemma base_case_run st :
  py_int "1" = Some 1 → py_int "5" = Some 5 →
  distance_cache st = ∅ → cache_file_writable st = true →
  validate_solution (base_case "haversine") st
  = (Ok {| feasible := true; errors := [] |},
     saved (after_leg "C001" "CDA" base_leg
              (after_leg "CDA" "C001" base_leg st))).
Proof.
  intros H1 H5 Hc Hw.
  rewrite (validate_solution_single _ _ (base_row "CDA-C001-CDA" "5")
             (base_route ["CDA"; "C001"; "CDA"]%string));
    [| reflexivity | by apply (read_base_row "haversine") | exact Hw].
  unfold check_route.
  change (base_case "haversine")
    with (base_case_with "haversine" base_solution).
  rewrite check_range_base by exact Hc. reflexivity.
Qed.

(** The client twice in a row, one demand declared: the second stop
    has no demand left, but the client counts as visited. *)
Lemma twice_run st :
  py_int "1" = Some 1 → py_int "5" = Some 5 →
  distance_cache st = ∅ → cache_file_writable st = true →
  validate_solution
    (base_case_with "haversine" [base_row "CDA-C001-C001-CDA" "5"]) st
  = (Ok {| feasible := false;
           errors := [MissingDemand "VEH1" "C001"; DuplicateVisits "VEH1";
                      ServedMismatch "VEH1" 2 1] |},
     saved (after_leg "C001" "CDA" base_leg
              (after_leg "C001" "C001" 0%R
                 (after_leg "CDA" "C001" base_leg st)))).
Proof.
  intros H1 H5 Hc Hw.
  rewrite (validate_solution_single _ _ (base_row "CDA-C001-C001-CDA" "5")
             (base_route ["CDA"; "C001"; "C001"; "CDA"]%string));
    [| reflexivity | by apply (read_base_row "haversine") | exact Hw].
  unfold check_route. rewrite check_range_twice by exact Hc. reflexivity.
Qed.

(** A stop that is no client of the data set takes the only demand; the
    client that follows has none left and is reported as not visited. *)
Lemma stranger_run st :
  py_int "1" = Some 1 → py_int "5" = Some 5 →
  cache_file_writable st = true →
  validate_solution
    (base_case_with "haversine" [base_row "C999-C001" "5"]) st
  = (Ok {| feasible := false;
           errors := [RouteNotClosed "VEH1" (StrKey "CDA");
                      InvalidLocation "VEH1" "C999";
                      IncorrectDemand "VEH1" "C999" 5 0;
                      MissingDemand "VEH1" "C001";
                      ServedMismatch "VEH1" 2 1;
                      NotVisited "C001"] |},
     saved st).
Proof.
  intros H1 H5 Hw.
  rewrite (validate_solution_single _ _ (base_row "C999-C001" "5")
             (base_route ["C999"; "C001"]%string));
    [| reflexivity | by apply (read_base_row "haversine") | exact Hw].
  unfold check_route.
  rewrite (check_range_one_pair _ _ _ "C999") by reflexivity. reflexivity.
Qed.


(** The test data set under a method name that is none of the three. *)
Lemma unknown_method_run st :
  py_int "1" = Some 1 → py_int "5" = Some 5 →
  distance_cache st = ∅ → cache_file_writable st = true →
  validate_solution (base_case "foo") st
  = (Ok {| feasible := false;
           errors := [DistanceError "VEH1"
                        (ValueError "Unknown distance method: foo");
                      DistanceError "VEH1"
                        (ValueError "Unknown distance method: foo")] |},
     saved st).
Proof.
  intros H1 H5 Hc Hw.
  rewrite (validate_solution_single _ _ (base_row "CDA-C001-CDA" "5")
             (base_route ["CDA"; "C001"; "CDA"]%string));
    [| reflexivity | by apply (read_base_row "foo") | exact Hw].
  unfold check_route.
  change (base_case "foo") with (base_case_with "foo" base_solution).
  rewrite check_range_unknown_method by exact Hc. reflexivity.
Qed.





End RealRuns.

(** ** Runs in a process without network *)

Section OfflineRuns.
#[local] Existing Instance offline.

Lemma offline_base_run :
  validate_solution (base_case "haversine") fresh_state
  = (Ok {| feasible := true; errors := [] |},
     saved (after_leg "C001" "CDA" base_leg
              (after_leg "CDA" "C001" base_leg fresh_state))).
Proof. by apply base_case_run. Qed.

Lemma offline_stranger_run :
  validate_solution
    (base_case_with "haversine" [base_row "C999-C001" "5"]) fresh_state
  = (Ok {| feasible := false;
           errors := [RouteNotClosed "VEH1" (StrKey "CDA");
                      InvalidLocation "VEH1" "C999";
                      IncorrectDemand "VEH1" "C999" 5 0;
                      MissingDemand "VEH1" "C001";
                      ServedMismatch "VEH1" 2 1;
                      NotVisited "C001"] |},
     saved fresh_state).
Proof. by apply stranger_run. Qed.

Lemma offline_first_leg :
  calculate_distance (base_case "haversine") "CDA" "C001" fresh_state
  = (Ok base_leg, after_leg "CDA" "C001" base_leg fresh_state).
Proof. by apply (calculate_distance_haversine _ "CDA" "C001"). Qed.


(** Witness of C1, on the run of the test data set. *)
Lemma validate_solution_consistent_witness :
  feasible {| feasible := true; errors := @nil (error R) |} = true
  ↔ errors {| feasible := true; errors := @nil (error R) |} = [].
Proof.
  exact (validate_solution_consistent (base_case "haversine") fresh_state
           _ _ offline_base_run).
Defined.

(** Counterexample to C2 as stated: a row whose fields all parse but whose
    vehicle is not in the fleet makes [validate_solution] raise
    [KeyError]; and under a method name that is none of the three the
    pass raises nothing and reports two distance errors. *)
Lemma validate_solution_hard_failures_cex :
  (ints_of_strs (split "-" (DemandsSatisfied unknown_vehicle_row)) = Ok [5]
   ∧ int_of_str (remove_VEH (VehicleId unknown_vehicle_row)) = Ok 2
   ∧ (validate_solution (base_case_with "haversine" [unknown_vehicle_row])
        fresh_state).1 = Raise (KeyError "2"))
  ∧ (validate_solution (base_case "foo") fresh_state).1
    = Ok {| feasible := false;
            errors := [DistanceError "VEH1"
                         (ValueError "Unknown distance method: foo");
                       DistanceError "VEH1"
                         (ValueError "Unknown distance method: foo")] |}.
Proof.
  split; [repeat split; reflexivity |].
  by rewrite unknown_method_run.
Qed.

(** Witness of C2 (amended), on the test data set. *)
Lemma validate_solution_returns_witness :
  ∃ routes res st',
    Forall2 (λ row r, read_route (base_case "haversine") row = Ok r)
            (solution_df (base_case "haversine")) routes
    ∧ validate_solution (base_case "haversine") fresh_state = (Ok res, st')
    ∧ errors res
      = (check_routes (base_case "haversine") routes
           ([], ∅, fresh_state)).1.1
        ++ map NotVisited
             (missing_clients (base_case "haversine")
                (check_routes (base_case "haversine") routes
                   ([], ∅, fresh_state)).1.2).
Proof.
  apply (validate_solution_returns (base_case "haversine") fresh_state).
  - constructor; [| constructor]. split.
    + constructor; [by eexists | constructor].
    + exists 1. split; [reflexivity | by eexists].
  - reflexivity.
Defined.




(** Witness of C5, on the run of the test data set. *)
Lemma validate_solution_saves_snapshot_witness :
  let st' := saved (after_leg "C001" "CDA" base_leg
                      (after_leg "CDA" "C001" base_leg fresh_state)) in
  ∃ new,
    events st' = events fresh_state ++ (new ++ [SaveCacheCall])
    ∧ (SaveCacheCall ∉ new)
    ∧ cache_file st' = Some (distance_cache st')
    ∧ distance_cache fresh_state ⊆ distance_cache st'
    ∧ ∀ k, is_Some (distance_cache st' !! k) →
        is_Some (distance_cache fresh_state !! k)
        ∨ ∃ a b, StrategyCall "haversine" a b ∈ new
                 ∧ k = cache_key a b "haversine".
Proof.
  exact (validate_solution_saves_snapshot (base_case "haversine") fresh_state
           _ _ offline_base_run).
Defined.




(** Witness of C8: the depot and the client of the test data set. *)
Lemma cache_key_directional_scoped_witness :
  (∀ m, cache_key "CDA" "C001" m ≠ cache_key "C001" "CDA" m)
  ∧ (∀ m1 m2, m1 ≠ m2 → cache_key "CDA" "C001" m1 ≠ cache_key "CDA" "C001" m2)
  ∧ ∀ st (r : result R) st1,
      calculate_distance (base_case "haversine") "CDA" "C001" st = (r, st1) →
      distance_cache st1 !! cache_key "C001" "CDA" "haversine"
      = distance_cache st !! cache_key "C001" "CDA" "haversine"
      ∧ ∀ m, m ≠ "haversine"%string →
          distance_cache st1 !! cache_key "CDA" "C001" m
          = distance_cache st !! cache_key "CDA" "C001" m.
Proof.
  apply (cache_key_directional_scoped "haversine" base_vehicles base_clients
           base_depots base_solution "CDA" "C001").
  - by eexists.
  - by eexists.
  - discriminate.
Defined.


(** Counterexample to C10 as stated: in the route CDA-C001-C001-CDA with
    one declared demand, the second stop at C001 comes after the list is
    exhausted and gets its "missing demand value" error; C001 is in no
    other route, yet it is not reported as not visited. *)
Lemma exhausted_stop_served_earlier_cex :
  solution_df (base_case_with "haversine"
                 [base_row "CDA-C001-C001-CDA" "5"])
  = [base_row "CDA-C001-C001-CDA" "5"]
  ∧ "C001"%string
    ∈ unserved_stops (base_route ["CDA"; "C001"; "C001"; "CDA"]%string)
  ∧ ∃ res,
      (validate_solution
         (base_case_with "haversine" [base_row "CDA-C001-C001-CDA" "5"])
         fresh_state).1 = Ok res
      ∧ MissingDemand "VEH1" "C001" ∈ errors res
      ∧ NotVisited "C001" ∉ errors res.
Proof.
  split; [reflexivity |]. split.
  { change (unserved_stops _) with ["C001"%string].
    by apply list_elem_of_singleton. }
  eexists. split; [by rewrite twice_run |]. cbn [errors]. split.
  - apply elem_of_cons. by left.
  - intros Hin. repeat (apply elem_of_cons in Hin as [Hin | Hin];
                        [discriminate |]).
    by apply elem_of_nil in Hin.
Qed.

(** Witness of C10 (amended): in the route C999-C001 with one declared
    demand, C001 comes after the list is exhausted. *)
Lemma unserved_stop_not_visited_witness :
  let v := base_case_with "haversine" [base_row "C999-C001" "5"] in
  let res : ValidationResult R :=
             {| feasible := false;
                errors := [RouteNotClosed "VEH1" (StrKey "CDA");
                           InvalidLocation "VEH1" "C999";
                           IncorrectDemand "VEH1" "C999" 5 0;
                           MissingDemand "VEH1" "C001";
                           ServedMismatch "VEH1" 2 1;
                           NotVisited "C001"] |} in
  MissingDemand "VEH1" "C001" ∈ errors res
  ∧ (is_Some (client_demands v !! "C001") →
     (∀ r', r' ∈ [base_route ["C999"; "C001"]%string] →
            "C001"%string ∉ served_stops r') →
     NotVisited "C001" ∈ errors res).
Proof.
  refine (unserved_stop_not_visited
            (base_case_with "haversine" [base_row "C999-C001" "5"])
            fresh_state _ _ [base_route ["C999"; "C001"]%string]
            (base_route ["C999"; "C001"]%string) "C001"
            _ offline_stranger_run _ _).
  - constructor; [| constructor]. by apply (read_base_row "haversine").
  - by apply list_elem_of_singleton.
  - change (unserved_stops _) with ["C001"%string].
    by apply list_elem_of_singleton.
Defined.

End OfflineRuns.

(** * Further properties of the code *)

Set Warnings "-clear-no-such-hyp".

(** ** The keys of the registry *)

Lemma all_numeral_app (s t : string) :
  all_numeral (s +:+ t) = all_numeral s && all_numeral t.
Proof.
  induction s as [| c s IH]; [done |].
  rewrite append_cons. cbn [all_numeral]. rewrite IH. by rewrite andb_assoc.
Qed.

Lemma uint_str_numeral (d : Decimal.uint) :
  all_numeral (NilEmpty.string_of_uint d) = true.
Proof. induction d; cbn; done. Qed.

Lemma int_str_numeral (n : Z) : all_numeral (int_str n) = true.
Proof.
  unfold int_str. destruct (Z.to_int n) as [d | d]; cbn.
  - destruct d; cbn; try done; apply uint_str_numeral.
  - destruct d; cbn; try done; apply uint_str_numeral.
Qed.

Lemma zeros_numeral (k : nat) :
  all_numeral (String.concat EmptyString (replicate k "0"%string)) = true.
Proof.
  induction k as [| k IH]; [done |]. cbn [replicate String.concat].
  destruct (replicate k "0"%string) eqn:Hr; [done |].
  rewrite append_cons, !append_nil. cbn [all_numeral numeral_char andb].
  exact IH.
Qed.

Lemma fmt_03d_numeral (n : Z) : all_numeral (fmt_03d n) = true.
Proof.
  unfold fmt_03d, zero_pad.
  destruct (n <? 0); rewrite ?append_cons, ?append_nil; cbn [all_numeral];
    rewrite all_numeral_app, zeros_numeral, int_str_numeral; done.
Qed.

Lemma client_key_cons (id : Z) : client_key id = String "C" (fmt_03d id).
Proof. reflexivity. Qed.

Lemma client_key_not_alias (id : Z) : client_key id ≠ "CDA"%string.
Proof.
  rewrite client_key_cons. intros H. injection H as H.
  pose proof (fmt_03d_numeral id) as Hn. rewrite H in Hn. discriminate.
Qed.

Lemma client_key_not_number (id n : Z) : client_key id ≠ int_str n.
Proof.
  rewrite client_key_cons. intros H.
  pose proof (int_str_numeral n) as Hn. rewrite <- H in Hn. discriminate.
Qed.

Lemma alias_not_number (n : Z) : "CDA"%string ≠ int_str n.
Proof.
  intros H. pose proof (int_str_numeral n) as Hn. rewrite <- H in Hn.
  discriminate.
Qed.

(** X5: the key that [__init__] gives a client is a client stop for
    check 4, whatever the identifier. *)
Theorem client_key_is_client_stop (id : Z) :
  is_client_stop (client_key id) = true.
Proof.
  unfold is_client_stop. rewrite client_key_cons. cbn [startswith_C andb].
  rewrite bool_decide_eq_false_2; [done |].
  pose proof (fmt_03d_numeral id) as Hn.
  intros Hin. repeat (apply elem_of_cons in Hin as [Hin | Hin];
                      [injection Hin as Hin; rewrite Hin in Hn; discriminate |]).
  by apply elem_of_nil in Hin.
Qed.

Section RegistryKeys.
Context {num : Type}.
Implicit Types (locs : gmap loc_key (Location num)).

Lemma add_depots_string_keys (depots : list (DepotRow num)) locs (s : string) :
  is_Some (fold_left add_depot depots locs !! StrKey s)
  ↔ is_Some (locs !! StrKey s)
    ∨ s = "CDA"%string ∧ ∃ d, d ∈ depots ∧ DepotID d = 1.
Proof.
  revert locs. induction depots as [| d depots IH]; intros locs.
  { split; [by left |]. intros [? | [_ (d & ?%elem_of_nil & _)]]; done. }
  cbn [fold_left]. rewrite IH. unfold add_depot. split.
  - intros [Hs | [-> (d' & Hd' & H1)]].
    + case_bool_decide as Hid.
      * destruct (decide (s = "CDA"%string)) as [-> | Hne].
        { right. split; [done |]. exists d. split; [by left | done]. }
        rewrite lookup_insert_ne in Hs by congruence.
        rewrite lookup_insert_ne in Hs by done. by left.
      * rewrite lookup_insert_ne in Hs by done. by left.
    + right. split; [done |]. exists d'. split; [by right | done].
  - intros [Hs | [-> (d' & [-> | Hd']%elem_of_cons & H1)]].
    + left. case_bool_decide.
      * destruct (decide (s = "CDA"%string)) as [-> | Hne].
        { rewrite lookup_insert_eq. by eexists. }
        rewrite lookup_insert_ne by congruence.
        by rewrite lookup_insert_ne by done.
      * by rewrite lookup_insert_ne by done.
    + left. rewrite bool_decide_eq_true_2 by done.
      rewrite lookup_insert_eq. by eexists.
    + right. split; [done |]. by exists d'.
Qed.

Lemma add_clients_string_keys (clients : list (ClientRow num)) locs
    (s : string) :
  is_Some (fold_left add_client clients locs !! StrKey s)
  ↔ is_Some (locs !! StrKey s)
    ∨ ∃ c, c ∈ clients ∧ s = client_key (ClientID c).
Proof.
  revert locs. induction clients as [| c clients IH]; intros locs.
  { split; [by left |]. intros [? | (c & ?%elem_of_nil & _)]; done. }
  cbn [fold_left]. rewrite IH. unfold add_client. split.
  - intros [Hs | (c' & Hc' & ->)].
    + destruct (decide (s = client_key (ClientID c))) as [-> | Hne].
      * right. exists c. split; [by left | done].
      * rewrite lookup_insert_ne in Hs by congruence. by left.
    + right. exists c'. split; [by right | done].
  - intros [Hs | (c' & [-> | Hc']%elem_of_cons & ->)].
    + left. destruct (decide (s = client_key (ClientID c))) as [-> | Hne].
      * rewrite lookup_insert_eq. by eexists.
      * by rewrite lookup_insert_ne by congruence.
    + left. rewrite lookup_insert_eq. by eexists.
    + right. by exists c'.
Qed.

Lemma build_locations_string_keys (depots : list (DepotRow num))
    (clients : list (ClientRow num)) (s : string) :
  is_Some (build_locations depots clients !! StrKey s)
  ↔ (s = "CDA"%string ∧ ∃ d, d ∈ depots ∧ DepotID d = 1)
    ∨ ∃ c, c ∈ clients ∧ s = client_key (ClientID c).
Proof.
  unfold build_locations.
  rewrite add_clients_string_keys, add_depots_string_keys, lookup_empty.
  split.
  - intros [[[? ?] | ?] | ?]; [done | by left | by right].
  - intros [? | ?]; [left; by right | by right].
Qed.

(** X1: the string keys of the registry built by [__init__] are the
    alias "CDA", present exactly when some depot has the number 1, and
    the keys of the clients. *)
Theorem registry_string_keys (method : string) (vehicles : list VehicleRow)
    (clients : list (ClientRow num)) (depots : list (DepotRow num))
    (solution : list SolutionRow) (s : string) :
  is_Some (locations (init method vehicles clients depots solution)
             !! StrKey s)
  ↔ (s = "CDA"%string ∧ ∃ d, d ∈ depots ∧ DepotID d = 1)
    ∨ ∃ c, c ∈ clients ∧ s = client_key (ClientID c).
Proof. apply build_locations_string_keys. Qed.

(** X3: a stop written as a number is never a known location, although
    [__init__] registers every depot under its number: the numeric keys
    are integers and the stops of a route are strings. *)
Theorem numeric_stop_unknown (method : string) (vehicles : list VehicleRow)
    (clients : list (ClientRow num)) (depots : list (DepotRow num))
    (solution : list SolutionRow) (n : Z) :
  known (init method vehicles clients depots solution) (int_str n) = false.
Proof.
  unfold known. apply bool_decide_eq_false_2. cbn [locations init].
  rewrite build_locations_string_keys.
  intros [[H _] | (c & _ & H)].
  - symmetry in H. by apply alias_not_number in H.
  - symmetry in H. by apply client_key_not_number in H.
Qed.

(** X2: after [__init__] the alias "CDA" and the number 1 name the same
    entry: the last depot row with the number 1, or none when there is no
    such row. No client row can take the alias over. *)
Theorem depot_alias_same_entry (depots : list (DepotRow num))
    (clients : list (ClientRow num)) :
  build_locations depots clients !! StrKey "CDA"
  = build_locations depots clients !! IntKey 1.
Proof.
  unfold build_locations.
  assert (∀ locs, fold_left add_client clients locs !! StrKey "CDA"
                  = locs !! StrKey "CDA"
                  ∧ fold_left add_client clients locs !! IntKey 1
                    = locs !! IntKey 1) as Hclients.
  { induction clients as [| c clients IH]; intros locs; [done |].
    cbn [fold_left]. destruct (IH (add_client locs c)) as [-> ->].
    unfold add_client. split.
    - rewrite lookup_insert_ne; [done |].
      intros H. apply (client_key_not_alias (ClientID c)). congruence.
    - by rewrite lookup_insert_ne. }
  destruct (Hclients (fold_left add_depot depots ∅)) as [-> ->].
  assert (∀ locs, locs !! StrKey "CDA" = locs !! IntKey 1 →
                  fold_left add_depot depots locs !! StrKey "CDA"
                  = fold_left add_depot depots locs !! IntKey 1) as Hdepots.
  { induction depots as [| d depots IH]; intros locs Hlocs; [done |].
    cbn [fold_left]. apply IH. unfold add_depot. case_bool_decide as Hid.
    - rewrite Hid. rewrite lookup_insert_eq.
      rewrite lookup_insert_ne by done. by rewrite lookup_insert_eq.
    - rewrite !lookup_insert_ne by congruence. exact Hlocs. }
  apply Hdepots. by rewrite !lookup_empty.
Qed.

End RegistryKeys.

(** ** Client keys name their client *)

Lemma zeros_digits (k : nat) (d : Decimal.uint) :
  String.concat EmptyString (replicate k "0"%string)
  +:+ NilEmpty.string_of_uint d
  = NilEmpty.string_of_uint (Nat.iter k Decimal.D0 d).
Proof.
  induction k as [| k IH]; [done |]. cbn [replicate String.concat Nat.iter].
  change (Nat.iter (S k) Decimal.D0 d) with (Decimal.D0 (Nat.iter k Decimal.D0 d)).
  cbn [NilEmpty.string_of_uint]. rewrite <- IH.
  destruct (replicate k "0"%string) eqn:Hr; [done |].
  by rewrite !append_cons, !append_nil.
Qed.

Lemma zeros_value (k : nat) (d : Decimal.uint) :
  Pos.of_uint (Nat.iter k Decimal.D0 d) = Pos.of_uint d.
Proof. induction k as [| k IH]; [done |]. exact IH. Qed.

Lemma zeros_nonnil (k : nat) (d : Decimal.uint) :
  d ≠ Decimal.Nil → Nat.iter k Decimal.D0 d ≠ Decimal.Nil.
Proof. destruct k; [done |]. intros _. discriminate. Qed.

Lemma nonnil_string (d : Decimal.uint) :
  d ≠ Decimal.Nil → NilZero.string_of_uint d = NilEmpty.string_of_uint d.
Proof. by destruct d. Qed.

(** The digits of a number that is not negative. *)
Lemma int_str_digits (n : Z) :
  0 ≤ n →
  ∃ d, d ≠ Decimal.Nil ∧ int_str n = NilEmpty.string_of_uint d
       ∧ Z.of_uint d = n.
Proof.
  intros Hn. destruct n as [| p | p]; [| | lia].
  - by exists (Decimal.D0 Decimal.Nil).
  - exists (Pos.to_uint p). split; [apply DecimalPos.Unsigned.to_uint_nonnil |].
    split.
    + unfold int_str. cbn. apply nonnil_string, DecimalPos.Unsigned.to_uint_nonnil.
    + unfold Z.of_uint. by rewrite DecimalPos.Unsigned.of_to.
Qed.

Lemma decimal_int_padded (width : nat) (d : Decimal.uint) :
  d ≠ Decimal.Nil →
  decimal_int (zero_pad width (NilEmpty.string_of_uint d))
  = Some (Z.of_uint d)
  ∧ decimal_int ("-" +:+ zero_pad width (NilEmpty.string_of_uint d))
    = Some (- Z.of_uint d).
Proof.
  intros Hd. unfold zero_pad. rewrite zeros_digits.
  set (d' := Nat.iter _ Decimal.D0 d).
  assert (d' ≠ Decimal.Nil) as Hd' by by apply zeros_nonnil.
  assert (Z.of_uint d' = Z.of_uint d) as Hv.
  { unfold Z.of_uint, d'. by rewrite zeros_value. }
  unfold decimal_int. split.
  - rewrite <- (nonnil_string d' Hd').
    change (NilZero.string_of_uint d')
      with (NilZero.string_of_int (Decimal.Pos d')).
    rewrite NilZero.isi by congruence. cbn. by rewrite Hv.
  - rewrite append_cons, append_nil. rewrite <- (nonnil_string d' Hd').
    change (String "-" (NilZero.string_of_uint d'))
      with (NilZero.string_of_int (Decimal.Neg d')).
    rewrite NilZero.isi by congruence. cbn. by rewrite Hv.
Qed.

Lemma decimal_int_fmt_03d (n : Z) : decimal_int (fmt_03d n) = Some n.
Proof.
  unfold fmt_03d. destruct (n <? 0) eqn:Hneg.
  - apply Z.ltb_lt in Hneg.
    destruct (int_str_digits (- n)) as (d & Hd & -> & Hv); [lia |].
    destruct (decimal_int_padded 2 d Hd) as [_ ->]. f_equal. lia.
  - apply Z.ltb_ge in Hneg.
    destruct (int_str_digits n Hneg) as (d & Hd & -> & Hv).
    destruct (decimal_int_padded 3 d Hd) as [-> _]. by f_equal.
Qed.

Lemma client_id_of_client_key (id : Z) :
  client_id_of_key (client_key id) = Some id.
Proof. rewrite client_key_cons. cbn. apply decimal_int_fmt_03d. Qed.

Lemma client_key_inj (id1 id2 : Z) :
  client_key id1 = client_key id2 → id1 = id2.
Proof.
  intros H. pose proof (client_id_of_client_key id1) as H1.
  rewrite H, client_id_of_client_key in H1. by injection H1.
Qed.

(** X4: the key of a client is "C" followed by a numeral that reads
    back as the identifier, for every integer, padded or not, negative or
    not; so two clients share a key only when they share the identifier. *)
Theorem client_key_round_trip (id1 id2 : Z) :
  client_id_of_key (client_key id1) = Some id1
  ∧ (client_key id1 = client_key id2 ↔ id1 = id2).
Proof.
  split; [apply client_id_of_client_key |].
  split; [apply client_key_inj | by intros ->].
Qed.

(** ** The entries of the registry and of the lookup tables *)

Section RegistryEntries.
Context {num : Type}.
Implicit Types (locs : gmap loc_key (Location num)).

Lemma add_clients_other (clients : list (ClientRow num)) locs (k : loc_key) :
  Forall (λ c, k ≠ StrKey (client_key (ClientID c))) clients →
  fold_left add_client clients locs !! k = locs !! k.
Proof.
  intros Hall. revert locs.
  induction Hall as [| c clients Hc _ IH]; intros locs; [done |].
  cbn [fold_left]. rewrite IH. unfold add_client.
  by rewrite lookup_insert_ne.
Qed.

Lemma add_depots_no_demand (depots : list (DepotRow num)) locs :
  (∀ k p, locs !! k = Some p → demand p = None) →
  ∀ k p, fold_left add_depot depots locs !! k = Some p → demand p = None.
Proof.
  revert locs. induction depots as [| d depots IH]; intros locs Hlocs;
    [exact Hlocs |].
  cbn [fold_left]. apply IH. intros k p. unfold add_depot.
  case_bool_decide.
  - destruct (decide (k = StrKey "CDA")) as [-> | ?].
    { rewrite lookup_insert_eq. by intros [= <-]. }
    rewrite lookup_insert_ne by done.
    destruct (decide (k = IntKey (DepotID d))) as [-> | ?].
    { rewrite lookup_insert_eq. by intros [= <-]. }
    rewrite lookup_insert_ne by done. apply Hlocs.
  - destruct (decide (k = IntKey (DepotID d))) as [-> | ?].
    { rewrite lookup_insert_eq. by intros [= <-]. }
    rewrite lookup_insert_ne by done. apply Hlocs.
Qed.

Lemma client_tables_agree (clients : list (ClientRow num))
    (m : gmap string Z) locs :
  (∀ s, m !! s = locs !! StrKey s ≫= demand) →
  ∀ s, fold_left (λ m c, <[client_key (ClientID c) := Demand c]> m) clients m
       !! s
       = fold_left add_client clients locs !! StrKey s ≫= demand.
Proof.
  revert m locs. induction clients as [| c clients IH]; intros m locs H;
    [exact H |].
  cbn [fold_left]. apply IH. intros s. unfold add_client.
  destruct (decide (s = client_key (ClientID c))) as [-> | Hne].
  - by rewrite !lookup_insert_eq.
  - rewrite !lookup_insert_ne by congruence. apply H.
Qed.

Lemma client_demands_match_locations_aux (depots : list (DepotRow num))
    (clients : list (ClientRow num)) (s : string) :
  build_client_demands clients !! s
  = build_locations depots clients !! StrKey s ≫= demand.
Proof.
  unfold build_client_demands, build_locations.
  apply client_tables_agree. intros s'. rewrite lookup_empty.
  destruct (fold_left add_depot depots ∅ !! StrKey s') as [p |] eqn:Hp;
    [| done].
  cbn. symmetry. eapply add_depots_no_demand; [| exact Hp].
  intros k p'. by rewrite lookup_empty.
Qed.

(** X6: the two tables that [__init__] builds from the client rows
    agree: the demand recorded for a key in [client_demands] is the demand
    field of the location under that key, and a key without a demand (the
    depot alias, or no entry at all) is no key of [client_demands]. *)
Theorem client_demands_match_locations (depots : list (DepotRow num))
    (clients : list (ClientRow num)) (s : string) :
  build_client_demands clients !! s
  = build_locations depots clients !! StrKey s ≫= demand.
Proof. apply client_demands_match_locations_aux. Qed.

(** X7: a client row that no later row repeats the identifier of is
    registered under its key with its own coordinates and demand, in both
    tables; an earlier row with the same identifier is overwritten. *)
Theorem last_client_row_registered (depots : list (DepotRow num))
    (before after : list (ClientRow num)) (c : ClientRow num) :
  Forall (λ c', ClientID c' ≠ ClientID c) after →
  build_locations depots (before ++ c :: after)
    !! StrKey (client_key (ClientID c)) = Some (client_entry c)
  ∧ build_client_demands (before ++ c :: after) !! client_key (ClientID c)
    = Some (Demand c).
Proof.
  intros Hafter.
  assert (build_locations depots (before ++ c :: after)
            !! StrKey (client_key (ClientID c)) = Some (client_entry c)) as Hl.
  { unfold build_locations. rewrite fold_left_app. cbn [fold_left].
    rewrite add_clients_other.
    - unfold add_client. by rewrite lookup_insert_eq.
    - eapply Forall_impl; [exact Hafter |]. cbn. intros c' Hne Heq.
      apply Hne. symmetry. apply client_key_inj. congruence. }
  split; [exact Hl |].
  rewrite (client_demands_match_locations_aux depots), Hl. done.
Qed.

End RegistryEntries.

(** X8: [vehicle_specs] holds, for a vehicle number, the capacity and
    range of the last vehicle row with that number, and nothing for a
    number that no row has. *)
Theorem vehicle_specs_lookup (before after : list VehicleRow)
    (r : VehicleRow) (n : Z) :
  Forall (λ r', VehicleID r' ≠ VehicleID r) after →
  build_vehicle_specs (before ++ r :: after) !! VehicleID r
  = Some (vehicle_entry r)
  ∧ (Forall (λ r', VehicleID r' ≠ n) (before ++ r :: after) →
     build_vehicle_specs (before ++ r :: after) !! n = None).
Proof.
  assert (∀ (rows : list VehicleRow) (m : gmap Z VehicleSpec) (k : Z),
            Forall (λ r', VehicleID r' ≠ k) rows →
            fold_left (λ m r, <[VehicleID r := {| capacity := Capacity r;
                                                  range := Range r |}]> m)
                      rows m !! k = m !! k) as Hother.
  { intros rows m k Hall. revert m.
    induction Hall as [| r' rows Hr' _ IH]; intros m; [done |].
    cbn [fold_left]. rewrite IH. by rewrite lookup_insert_ne. }
  intros Hafter. unfold build_vehicle_specs. split.
  - rewrite fold_left_app. cbn [fold_left]. rewrite Hother by exact Hafter.
    by rewrite lookup_insert_eq.
  - intros Hn. by rewrite Hother by exact Hn.
Qed.

(** ** When a pass raises *)

Section Raising.
Context {num : Type} `{!FloatOps num} `{!External num}.
Implicit Types (v : SolutionValidator num) (st : State num).

Lemma ints_of_strs_Ok_inv (pieces : list string) (ns : list Z) :
  ints_of_strs pieces = Ok ns →
  Forall (λ p, is_Some (py_int p)) pieces.
Proof.
  revert ns. induction pieces as [| p pieces IH]; intros ns H; [constructor |].
  cbn in H. unfold int_of_str in H.
  destruct (py_int p) as [n |] eqn:Hp; [| discriminate]. cbn in H.
  destruct (ints_of_strs pieces) as [ns' |]; [| discriminate].
  constructor; [by eexists | by eapply IH].
Qed.

Lemma read_route_Ok_inv v (row : SolutionRow) (r : Route) :
  read_route v row = Ok r → row_readable v row.
Proof.
  unfold read_route. intros H.
  destruct (ints_of_strs _) as [ns |] eqn:Hd; [| discriminate]. cbn in H.
  unfold int_of_str in H.
  destruct (py_int (remove_VEH (VehicleId row))) as [n |] eqn:Hn;
    [| discriminate]. cbn in H.
  destruct (vehicle_specs v !! n) as [spec |] eqn:Hs; [| discriminate].
  split; [by eapply ints_of_strs_Ok_inv |]. exists n. split; [done |].
  by eexists.
Qed.

Lemma validate_routes_Ok_inv v (rows : list SolutionRow)
    (acc : list (error num) * gset string * State num)
    (out : list (error num) * gset string) st' :
  validate_routes v rows acc = (Ok out, st') →
  Forall (row_readable v) rows.
Proof.
  revert acc. induction rows as [| row rows IH]; intros acc H; [constructor |].
  cbn [validate_routes] in H.
  destruct (read_route v row) as [r |] eqn:Hr; [| discriminate].
  constructor; [by eapply read_route_Ok_inv | by eapply IH].
Qed.


(** A pass that raises has not written the cache file. *)
Lemma validate_solution_Raise v st (e : exn) st' :
  validate_solution v st = (Raise e, st') →
  cache_file st' = cache_file st
  ∧ distance_cache st ⊆ distance_cache st'.
Proof.
  unfold validate_solution. intros H.
  destruct (validate_routes _ _ _) as [[[errs visited] | e1] st1] eqn:Hv.
  - apply validate_routes_grows in Hv as (new & Hg).
    unfold save_cache in H.
    destruct (cache_file_writable st1); [discriminate |].
    simplify_eq. cbn. split; [apply Hg | apply Hg].
  - apply validate_routes_grows in Hv as (new & Hg).
    simplify_eq. split; apply Hg.
Qed.

(** X10: a pass that raises, on an unreadable row or on the write
    itself, leaves the cache file as it was: the distances computed
    before the failure stay in memory and are lost to later runs. *)
Theorem failed_pass_keeps_cache_file v st (e : exn) st' :
  validate_solution v st = (Raise e, st') →
  cache_file st' = cache_file st
  ∧ distance_cache st ⊆ distance_cache st'.
Proof. apply validate_solution_Raise. Qed.

End Raising.

(** ** The strategies at their edges *)





Section UnknownLocation.
Context {num : Type} `{!FloatOps num} `{!External num}.
Implicit Types (v : SolutionValidator num) (st : State num).

Lemma lookup_unknown v (loc : string) :
  known v loc = false →
  lookup_location v loc = Raise (KeyError ("'" +:+ loc +:+ "'")).
Proof.
  unfold known, lookup_location. intros H.
  apply bool_decide_eq_false_1 in H.
  destruct (locations v !! StrKey loc); [| done]. destruct H. by eexists.
Qed.

Lemma lookup_known v (loc : string) :
  known v loc = true → ∃ p, lookup_location v loc = Ok p.
Proof.
  unfold known, lookup_location. intros [p Hp]%bool_decide_eq_true_1.
  rewrite Hp. by eexists.
Qed.

(** X13: on a miss, under any of the three methods, a call of
    [calculate_distance] with an unknown location raises [KeyError] for
    the first unknown one (the origin before the destination); the call is
    logged, but nothing is cached and no request is sent. *)
Theorem calculate_distance_unknown_location v (a b loc : string) st :
  distance_method v ∈ ["haversine"; "geopy"; "osrm"]%string →
  distance_cache st !! cache_key a b (distance_method v) = None →
  reported_endpoint v (a, b) = Some loc →
  calculate_distance v a b st
  = (Raise (KeyError ("'" +:+ loc +:+ "'")),
     log_event (StrategyCall (distance_method v) a b) st).
Proof.
  intros Hm Hc Hloc. rewrite calculate_distance_miss by exact Hc.
  assert (lookup_location v a = Raise (KeyError ("'" +:+ loc +:+ "'"))
          ∨ (∃ p, lookup_location v a = Ok p)
            ∧ lookup_location v b = Raise (KeyError ("'" +:+ loc +:+ "'")))
    as Hlook.
  { unfold reported_endpoint in Hloc. cbn in Hloc.
    destruct (known v a) eqn:Ha; cbn in Hloc.
    - destruct (known v b) eqn:Hb; cbn in Hloc; [done |]. simplify_eq.
      right. split; [by apply lookup_known | by apply lookup_unknown].
    - simplify_eq. left. by apply lookup_unknown. }
  unfold run_strategy.
  repeat (apply elem_of_cons in Hm as [Hm | Hm]);
    [| | | by apply elem_of_nil in Hm]; rewrite Hm; cbn.
  - unfold haversine_distance.
    destruct Hlook as [-> | [[p ->] ->]]; done.
  - unfold geopy_distance.
    destruct Hlook as [-> | [[p ->] ->]]; done.
  - unfold osrm_distance.
    destruct Hlook as [-> | [[p ->] ->]]; done.
Qed.

End UnknownLocation.

(** ** The errors of a route, part by part *)

Section Decomposition.
Context {num : Type} `{!FloatOps num} `{!External num}.
Implicit Types (v : SolutionValidator num) (st : State num).
Implicit Types (errs : list (error num)) (visited : gset string).

Lemma range_step_app v (vid : string) (total : num) errs st
    (p : string * string) :
  range_step v vid (total, errs, st) p
  = ((range_step v vid (total, [], st) p).1.1,
     errs ++ (range_step v vid (total, [], st) p).1.2,
     (range_step v vid (total, [], st) p).2).
Proof.
  destruct p as [a b]. unfold range_step.
  destruct (negb (known v a)); [done |].
  destruct (negb (known v b)); [done |].
  destruct (calculate_distance v a b st) as [[d | e] st1]; cbn;
    by rewrite ?app_nil_r.
Qed.

Lemma range_loop_app v (vid : string) (pairs : list (string * string))
    (total : num) errs st :
  range_loop v vid pairs (total, errs, st)
  = ((range_loop v vid pairs (total, [], st)).1.1,
     errs ++ (range_loop v vid pairs (total, [], st)).1.2,
     (range_loop v vid pairs (total, [], st)).2).
Proof.
  unfold range_loop. revert total errs st.
  induction pairs as [| p pairs IH]; intros total errs st.
  { cbn. by rewrite app_nil_r. }
  cbn [fold_left]. rewrite range_step_app.
  destruct (range_step v vid (total, [], st) p) as [[t1 e1] st1]. cbn.
  rewrite (IH t1 (errs ++ e1) st1), (IH t1 e1 st1). cbn.
  by rewrite app_assoc.
Qed.

Lemma check_range_app v (r : Route) errs st :
  check_range v r errs st
  = (errs ++ (check_range v r [] st).1, (check_range v r [] st).2).
Proof.
  unfold check_range. rewrite range_loop_app.
  destruct (range_loop _ _ _ (_, [], _)) as [[t e] st1]. cbn.
  destruct (fgt _ _); cbn; by rewrite ?app_assoc.
Qed.

Lemma demand_loop_app v (r : Route) (seq : list string) (idx : nat)
    visited errs :
  demand_loop v r seq (idx, visited, errs)
  = ((demand_loop v r seq (idx, ∅, [])).1.1,
     (demand_loop v r seq (idx, ∅, [])).1.2 ∪ visited,
     errs ++ (demand_loop v r seq (idx, ∅, [])).2).
Proof.
  unfold demand_loop. revert idx visited errs.
  induction seq as [| loc seq IH]; intros idx visited errs.
  { cbn. rewrite app_nil_r. f_equal. f_equal. set_solver. }
  cbn [fold_left]. unfold demand_step at 2 4 6 8.
  destruct (is_client_stop loc); [| apply IH].
  destruct (demands_satisfied r !! idx) as [actual |].
  - rewrite (IH (S idx) ({[loc]} ∪ visited)).
    rewrite (IH (S idx) ({[loc]} ∪ ∅)).
    destruct (fold_left _ seq (S idx, ∅, [])) as [[i vs] e]. cbn.
    case_bool_decide; cbn;
      (f_equal; first [by rewrite <- ?app_assoc | f_equal; set_solver]).
  - rewrite (IH idx visited (errs ++ [MissingDemand (vehicle_id r) loc])).
    rewrite (IH idx ∅ [MissingDemand (vehicle_id r) loc]).
    destruct (fold_left _ seq (idx, ∅, [])) as [[i vs] e]. cbn.
    f_equal; first [by rewrite <- ?app_assoc | f_equal; set_solver].
Qed.

Lemma demand_loop_visited v (r : Route) :
  (demand_loop v r (route_sequence r) (0%nat, ∅, [])).1.2
  = list_to_set (served_stops r).
Proof.
  destruct (demand_loop_spec v r (route_sequence r) 0 ∅ [])
    as (idx & vis & errs & Heq & _ & Hv & _).
  rewrite Heq. cbn. apply set_eq. intros c.
  rewrite Hv, Nat.sub_0_r, elem_of_list_to_set. unfold served_stops.
  set_solver.
Qed.

(** The route's errors are appended to the errors found so far, in
    three parts of which only the middle one depends on the state. *)
Lemma check_route_parts v (r : Route) errs visited st :
  check_route v r (errs, visited, st)
  = (errs ++ closure_capacity_errors r ++ (check_range v r [] st).1
          ++ demand_count_errors v r,
     list_to_set (served_stops r) ∪ visited,
     (check_range v r [] st).2).
Proof.
  unfold check_route, closure_capacity_errors, demand_count_errors.
  rewrite check_range_app.
  destruct (check_range v r [] st) as [e3 st3]. cbn [fst snd].
  rewrite demand_loop_app, <- (demand_loop_visited v).
  destruct (demand_loop v r (route_sequence r) (0%nat, ∅, []))
    as [[i vs] e4]. cbn [fst snd]. fold (route_clients r).
  destruct (starts_and_ends_at _ _);
    repeat case_bool_decide; cbn; by rewrite <- ?app_assoc, ?app_nil_r.
Qed.

(** X14: the errors of a route are appended to those found before it
    and do not depend on them, nor on the clients visited so far: they are
    the errors of checks 1 and 2, then those of the range check, which
    alone depend on the cache, then those of the demands and counts. The
    clients that found a demand are added to the visited set. *)
Theorem check_route_decomposes v (r : Route) errs visited st :
  check_route v r (errs, visited, st)
  = (errs ++ closure_capacity_errors r ++ (check_range v r [] st).1
          ++ demand_count_errors v r,
     list_to_set (served_stops r) ∪ visited,
     (check_range v r [] st).2).
Proof. apply check_route_parts. Qed.

End Decomposition.

(** ** What a feasible verdict means *)

Section Soundness.
Context {num : Type} `{!FloatOps num} `{!External num}.
Implicit Types (v : SolutionValidator num) (st : State num).
Implicit Types (errs : list (error num)) (visited : gset string).

Lemma remove_dups_length_le (l : list string) :
  (length (remove_dups l) ≤ length l)%nat.
Proof.
  induction l as [| x l IH]; cbn; [done |].
  destruct (decide_rel elem_of x l); cbn; lia.
Qed.

Lemma remove_dups_length_NoDup (l : list string) :
  length l = length (remove_dups l) → NoDup l.
Proof.
  induction l as [| x l IH]; cbn; [constructor |].
  pose proof (remove_dups_length_le l) as Hle.
  destruct (decide_rel elem_of x l) as [Hin | Hnin]; cbn; intros Hlen;
    [lia |].
  constructor; [done | apply IH; lia].
Qed.

Lemma closure_capacity_errors_nil (r : Route) :
  closure_capacity_errors (num := num) r = [] →
  (StrKey (hd EmptyString (route_sequence r)) = depot_id r
   ∧ StrKey (List.last (route_sequence r) EmptyString) = depot_id r)
  ∧ initial_load r ≤ capacity (vehicle_spec r).
Proof.
  unfold closure_capacity_errors, starts_and_ends_at.
  intros [H1 H2]%app_eq_nil. split.
  - destruct (bool_decide (StrKey (hd _ _) = _)) eqn:Ha;
      destruct (bool_decide (StrKey (List.last _ _) = _)) eqn:Hb;
      cbn in H1; try discriminate.
    by apply bool_decide_eq_true_1 in Ha, Hb.
  - case_bool_decide; [discriminate | lia].
Qed.

Lemma demand_loop_clean v (r : Route) (seq : list string) (idx : nat)
    visited :
  (demand_loop v r seq (idx, visited, [])).2 = [] →
  ∀ (i : nat) (c : string),
    filter (λ loc, is_client_stop loc = true) seq !! i = Some c →
    ∃ d, demands_satisfied r !! (idx + i)%nat = Some d
         ∧ d = default 0 (client_demands v !! c).
Proof.
  unfold demand_loop. revert idx visited.
  induction seq as [| loc seq IH]; intros idx visited Hnil i c Hc; [done |].
  cbn [fold_left] in Hnil. rewrite filter_cons in Hc.
  unfold demand_step at 2 in Hnil.
  destruct (is_client_stop loc) eqn:Hloc.
  2: { rewrite decide_False in Hc by done. by eapply IH. }
  rewrite decide_True in Hc by done.
  assert (∀ (j : nat) vis (e : error num),
            (fold_left (demand_step v r) seq (j, vis, [e])).2 ≠ []) as Hbad.
  { intros j vis e Heq.
    destruct (demand_loop_spec v r seq j vis [e])
      as (j' & vis' & errs' & Hrun & Hpre & _).
    unfold demand_loop in Hrun. rewrite Hrun in Heq. cbn in Heq. subst errs'.
    by apply prefix_nil_not in Hpre. }
  destruct (demands_satisfied r !! idx) as [actual |] eqn:Hd;
    [| by apply Hbad in Hnil].
  case_bool_decide as Hneq; [by apply Hbad in Hnil |].
  destruct i as [| i]; cbn in Hc.
  - injection Hc as ->. exists actual. rewrite Nat.add_0_r. by split.
  - destruct (IH (S idx) _ Hnil i c Hc) as (d & Hd' & ->).
    exists (default 0 (client_demands v !! c)). split; [| done].
    by replace (idx + S i)%nat with (S idx + i)%nat by lia.
Qed.

Lemma demand_count_errors_nil v (r : Route) :
  demand_count_errors v r = [] →
  NoDup (route_clients r)
  ∧ Z.of_nat (length (route_clients r)) = clients_served r
  ∧ (length (route_clients r) ≤ length (demands_satisfied r))%nat
  ∧ ∀ (i : nat) (c : string) (d : Z),
      route_clients r !! i = Some c →
      demands_satisfied r !! i = Some d →
      d = default 0 (client_demands v !! c).
Proof.
  unfold demand_count_errors.
  intros [Hloop [Hdup Hserved]%app_eq_nil]%app_eq_nil.
  pose proof (demand_loop_clean v r (route_sequence r) 0 ∅ Hloop) as Hd.
  fold (route_clients r) in Hd. split; [| split; [| split]].
  - destruct (decide (length (route_clients r)
                      = length (remove_dups (route_clients r))))
      as [Heq | Hne]; [by apply remove_dups_length_NoDup |].
    rewrite bool_decide_eq_true_2 in Hdup by done. discriminate.
  - destruct (decide (Z.of_nat (length (route_clients r))
                      = clients_served r)) as [Heq | Hne]; [done |].
    rewrite bool_decide_eq_true_2 in Hserved by done. discriminate.
  - destruct (decide (length (route_clients r)
                      ≤ length (demands_satisfied r))%nat) as [? | Hgt];
      [done |].
    destruct (lookup_lt_is_Some_2 (route_clients r)
                (length (demands_satisfied r))) as [c Hc]; [lia |].
    destruct (Hd _ _ Hc) as (d & Hlook & _). cbn in Hlook.
    apply lookup_lt_Some in Hlook. lia.
  - intros i c d Hc Hi. destruct (Hd _ _ Hc) as (d' & Hlook & ->).
    cbn in Hlook. congruence.
Qed.

Lemma range_loop_clean v (vid : string) (pairs : list (string * string))
    (total : num) st :
  (range_loop v vid pairs (total, [], st)).1.2 = [] →
  Forall (λ p, known v p.1 = true ∧ known v p.2 = true) pairs.
Proof.
  unfold range_loop. revert total st.
  induction pairs as [| [a b] pairs IH]; intros total st Hnil; [constructor |].
  cbn [fold_left] in Hnil.
  assert (∀ (t : num) (e : error num) s,
            (fold_left (range_step v vid) pairs (t, [e], s)).1.2 ≠ [])
    as Hbad.
  { intros t e s Heq.
    pose proof (range_loop_prefix v vid pairs t [e] s) as Hpre.
    unfold range_loop in Hpre. rewrite Heq in Hpre.
    by apply prefix_nil_not in Hpre. }
  unfold range_step at 2 in Hnil.
  destruct (known v a) eqn:Ha; cbn in Hnil; [| by apply Hbad in Hnil].
  destruct (known v b) eqn:Hb; cbn in Hnil; [| by apply Hbad in Hnil].
  destruct (calculate_distance v a b st) as [[d | e] st1];
    [| by apply Hbad in Hnil].
  constructor; [done | by eapply IH].
Qed.

Lemma check_range_nil v (r : Route) st :
  (check_range v r [] st).1 = [] →
  route_within_range v r st
  ∧ Forall (λ p, known v p.1 = true ∧ known v p.2 = true)
           (consecutive_pairs (route_sequence r)).
Proof.
  unfold check_range, route_within_range. intros H.
  destruct (range_loop _ _ _ _) as [[t e] st1] eqn:Hl. cbn.
  assert (e = [] ∧ fgt t (of_int (range (vehicle_spec r))) = false)
    as [-> Hf].
  { destruct (fgt _ _); cbn in H; [| done].
    by apply app_eq_nil in H as [_ ?]. }
  split; [done |].
  apply (range_loop_clean v (vehicle_id r) _ (of_int 0) st). by rewrite Hl.
Qed.

(** When the routes leave the error list empty, every part of every
    route's errors is empty, the range check of a route being the one
    made in the state in which the pass reaches the route. *)
Lemma check_routes_nil v (routes : list Route) visited st :
  (check_routes v routes ([], visited, st)).1.1 = [] →
  Forall2 (λ r st_r, closure_capacity_errors (num := num) r = []
                     ∧ demand_count_errors v r = []
                     ∧ (check_range v r [] st_r).1 = [])
          routes (route_states v routes st).
Proof.
  unfold check_routes. revert visited st.
  induction routes as [| r routes IH]; intros visited st Hnil; [constructor |].
  cbn [fold_left] in Hnil. rewrite check_route_parts in Hnil.
  cbn [app] in Hnil. cbn [route_states]. rewrite check_route_parts. cbn [snd].
  destruct (check_routes_spec v routes
              (closure_capacity_errors r ++ (check_range v r [] st).1
               ++ demand_count_errors v r)
              (list_to_set (served_stops r) ∪ visited)
              (check_range v r [] st).2)
    as (e' & vis' & st' & Hrun & Hpre & _).
  unfold check_routes in Hrun. rewrite Hrun in Hnil. cbn in Hnil. subst e'.
  apply prefix_nil_inv in Hpre.
  rewrite Hpre in Hrun.
  apply app_eq_nil in Hpre as [HA [HB HC]%app_eq_nil].
  constructor.
  - done.
  - eapply IH. by rewrite Hrun.
Qed.

(** X16: when [validate_solution] returns feasible, every route
    starts and ends at its depot, is within the vehicle's capacity, has
    only known locations at the ends of its legs, visits no client twice,
    declares the number of client stops it has, declares a demand for
    each of them and the right one; its range loop, started in the state
    in which this pass reached the route, found no error and a total
    within the range; and every client of the data set is a client stop
    of some route. *)
Theorem feasible_routes_respect_rules v st (res : ValidationResult num) st'
    (routes : list Route) :
  Forall2 (λ row r, read_route v row = Ok r) (solution_df v) routes →
  validate_solution v st = (Ok res, st') →
  feasible res = true →
  Forall2 (λ r st_r, route_respects_rules v r ∧ route_within_range v r st_r)
          routes (route_states v routes st)
  ∧ ∀ c, is_Some (client_demands v !! c) →
         ∃ r, r ∈ routes ∧ c ∈ route_clients r.
Proof.
  intros Hall Hrun Hfeas.
  apply validate_solution_Ok in Hrun
    as (errs & visited & st1 & Hv & _ & _ & Herrs & Hf).
  rewrite Hf in Hfeas. apply Nat.eqb_eq, nil_length_inv in Hfeas.
  rewrite Hfeas in Herrs. symmetry in Herrs.
  apply app_eq_nil in Herrs as [-> Hmiss].
  apply fmap_nil_inv in Hmiss.
  rewrite (validate_routes_all v _ routes _ Hall) in Hv.
  injection Hv as Herrs Hvis _.
  split.
  - apply check_routes_nil in Herrs.
    eapply Forall2_impl; [exact Herrs |]. cbn.
    intros r st_r (HA & HC & HB).
    apply closure_capacity_errors_nil in HA as [Hclosed Hcap].
    apply demand_count_errors_nil in HC as (Hnd & Hs & Hp & Hr).
    apply check_range_nil in HB as [Hrange Hknown].
    split; [by constructor | done].
  - intros c Hc.
    destruct (check_routes_spec v routes [] ∅ st)
      as (e' & vis' & st2 & Heq & _ & Hmem & _).
    rewrite Heq in Hvis. cbn in Hvis. subst vis'.
    assert (c ∈ visited) as Hin.
    { destruct (decide (c ∈ visited)) as [? | Hnot]; [done |].
      assert (c ∈ missing_clients v visited) as Hbad.
      { unfold missing_clients. apply elem_of_elements, elem_of_difference.
        split; [by apply elem_of_dom | done]. }
      rewrite Hmiss in Hbad. by apply elem_of_nil in Hbad. }
    apply Hmem in Hin as [(r & Hr & Hs) | ?%elem_of_empty]; [| done].
    exists r. split; [done |]. unfold served_stops in Hs.
    rewrite <- (take_drop (length (demands_satisfied r)) (route_clients r)).
    apply elem_of_app. by left.
Qed.

End Soundness.

(** ** The coverage check *)

Section Coverage.
Context {num : Type} `{!FloatOps num} `{!External num}.
Implicit Types (v : SolutionValidator num) (st : State num).
Implicit Types (errs : list (error num)) (visited : gset string).

Lemma range_loop_kinds v (vid : string) (pairs : list (string * string))
    (total : num) errs st :
  Forall (λ e, is_not_visited e = false) errs → Forall (λ e, is_not_visited e = false) (range_loop v vid pairs (total, errs, st)).1.2.
Proof.
  unfold range_loop. revert total errs st.
  induction pairs as [| [a b] pairs IH]; intros total errs st Herrs; [done |].
  cbn [fold_left]. unfold range_step at 2.
  destruct (negb (known v a)).
  { apply IH, Forall_app. split; [done | by repeat constructor]. }
  destruct (negb (known v b)).
  { apply IH, Forall_app. split; [done | by repeat constructor]. }
  destruct (calculate_distance v a b st) as [[d | e] st1]; apply IH; [done |].
  apply Forall_app. split; [done | by repeat constructor].
Qed.

Lemma check_range_kinds v (r : Route) st :
  Forall (λ e, is_not_visited e = false) (check_range v r [] st).1.
Proof.
  unfold check_range.
  pose proof (range_loop_kinds v (vehicle_id r)
                (consecutive_pairs (route_sequence r)) (of_int 0) [] st
                (Forall_nil_2 _)) as H.
  destruct (range_loop _ _ _ _) as [[t e] st1]. cbn in H.
  destruct (fgt _ _); cbn; [| done].
  apply Forall_app. split; [done | by repeat constructor].
Qed.

Lemma demand_loop_kinds v (r : Route) (seq : list string) (idx : nat)
    visited errs :
  Forall (λ e, is_not_visited e = false) errs → Forall (λ e, is_not_visited e = false) (demand_loop v r seq (idx, visited, errs)).2.
Proof.
  unfold demand_loop. revert idx visited errs.
  induction seq as [| loc seq IH]; intros idx visited errs Herrs; [done |].
  cbn [fold_left]. unfold demand_step at 2.
  destruct (is_client_stop loc); [| by apply IH].
  destruct (demands_satisfied r !! idx) as [actual |].
  - apply IH. case_bool_decide; [| done].
    apply Forall_app. split; [done | by repeat constructor].
  - apply IH, Forall_app. split; [done | by repeat constructor].
Qed.

Lemma check_routes_kinds v (routes : list Route) errs visited st :
  Forall (λ e, is_not_visited e = false) errs → Forall (λ e, is_not_visited e = false) (check_routes v routes (errs, visited, st)).1.1.
Proof.
  unfold check_routes. revert errs visited st.
  induction routes as [| r routes IH]; intros errs visited st Herrs; [done |].
  cbn [fold_left]. rewrite check_route_parts. apply IH.
  apply Forall_app. split; [done |].
  apply Forall_app. split.
  { unfold closure_capacity_errors. apply Forall_app. split.
    - destruct (starts_and_ends_at _ _); by repeat constructor.
    - case_bool_decide; by repeat constructor. }
  apply Forall_app. split; [apply check_range_kinds |].
  unfold demand_count_errors. apply Forall_app. split.
  { by apply demand_loop_kinds. }
  apply Forall_app. split; case_bool_decide; by repeat constructor.
Qed.

(** X15: the result of a pass is the errors of the routes, none of which
    is a "was not visited" error, followed by one "was not visited" error
    for each client of the data set that found a demand entry in no
    route, each such client once. A client that two routes serve is not
    reported at all. *)
Theorem coverage_errors_exact v st (res : ValidationResult num) st'
    (routes : list Route) :
  Forall2 (λ row r, read_route v row = Ok r) (solution_df v) routes →
  validate_solution v st = (Ok res, st') →
  ∃ route_errs missing,
    errors res = route_errs ++ map NotVisited missing
    ∧ Forall (λ e, is_not_visited e = false) route_errs
    ∧ NoDup missing
    ∧ ∀ c, c ∈ missing ↔
           is_Some (client_demands v !! c)
           ∧ ∀ r, r ∈ routes → c ∉ served_stops r.
Proof.
  intros Hall Hrun.
  apply validate_solution_Ok in Hrun
    as (errs & visited & st1 & Hv & _ & _ & Herrs & _).
  rewrite (validate_routes_all v _ routes _ Hall) in Hv.
  injection Hv as He Hvis _.
  exists errs, (missing_clients v visited). split; [exact Herrs |].
  split; [rewrite <- He; by apply check_routes_kinds |].
  split; [apply NoDup_elements |].
  destruct (check_routes_spec v routes [] ∅ st)
    as (e' & vis' & st2 & Heq & _ & Hmem & _).
  rewrite Heq in Hvis. cbn in Hvis. subst vis'.
  intros c. unfold missing_clients.
  rewrite elem_of_elements, elem_of_difference, elem_of_dom, Hmem.
  split.
  - intros [Hc Hnot]. split; [done |]. intros r Hr Hs.
    apply Hnot. left. by exists r.
  - intros [Hc Hnot]. split; [done |].
    intros [(r & Hr & Hs) | ?%elem_of_empty]; [| done]. by apply (Hnot r).
Qed.

End Coverage.

(** ** A second pass over a warm cache *)

Section Rerun.
Context {num : Type} `{!FloatOps num} `{!External num}.
Implicit Types (v : SolutionValidator num) (st : State num).
Implicit Types (errs : list (error num)) (visited : gset string).

Lemma calculate_distance_stored v (a b : string) st (d : num) st1 :
  calculate_distance v a b st = (Ok d, st1) →
  distance_cache st1 !! cache_key a b (distance_method v) = Some d.
Proof.
  unfold calculate_distance. intros H.
  destruct (distance_cache st !! _) as [d0 |] eqn:Hc; [by simplify_eq |].
  destruct (run_strategy v a b st) as [[d1 | e] st2]; [| discriminate].
  simplify_eq. cbn. apply lookup_insert_eq.
Qed.

Lemma check_routes_grows_aux v (routes : list Route) errs visited st
    errs' visited' st' :
  fold_left (λ acc r, check_route v r acc) routes (errs, visited, st)
  = (errs', visited', st') →
  ∃ new, grows (distance_method v) st st' new.
Proof.
  revert errs visited st.
  induction routes as [| r routes IH]; intros errs visited st H;
    cbn [fold_left] in H.
  { simplify_eq. eexists. apply grows_refl. }
  destruct (check_route v r (errs, visited, st)) as [[e1 vis1] st1] eqn:Hc.
  apply check_route_grows in Hc as (new1 & Hg1).
  apply IH in H as (new2 & Hg2).
  eexists. eapply grows_trans; eassumption.
Qed.

(** A loop that found no error finds none on a larger cache either,
    computes the same total and leaves that state as it is. *)
Lemma range_loop_replay v (vid : string) (pairs : list (string * string))
    (total total' : num) st st' st2 :
  range_loop v vid pairs (total, [], st) = (total', [], st') →
  distance_cache st' ⊆ distance_cache st2 →
  range_loop v vid pairs (total, [], st2) = (total', [], st2).
Proof.
  unfold range_loop. revert total st.
  induction pairs as [| [a b] pairs IH]; intros total st Hrun Hsub.
  { cbn in *. by simplify_eq. }
  cbn [fold_left] in *.
  destruct (range_step v vid (total, [], st) (a, b)) as [[t1 e1] st1] eqn:Hs.
  assert (e1 = []) as ->.
  { pose proof (range_loop_prefix v vid pairs t1 e1 st1) as Hpre.
    unfold range_loop in Hpre. rewrite Hrun in Hpre.
    by apply prefix_nil_inv in Hpre. }
  assert (distance_cache st1 ⊆ distance_cache st2) as Hsub1.
  { destruct (range_loop_grows v vid pairs t1 [] st1 total' [] st' Hrun)
      as (new & Hg).
    etrans; [apply Hg | exact Hsub]. }
  assert (range_step v vid (total, [], st2) (a, b) = (t1, [], st2)) as ->.
  { unfold range_step in Hs |- *.
    destruct (negb (known v a)); [discriminate |].
    destruct (negb (known v b)); [discriminate |].
    destruct (calculate_distance v a b st) as [[d | e] st1'] eqn:Hc;
      [| discriminate].
    simplify_eq. apply calculate_distance_stored in Hc.
    rewrite (calculate_distance_hit v a b st2 d); [done |].
    by eapply lookup_weaken. }
  by apply (IH t1 st1).
Qed.

Lemma check_range_replay v (r : Route) st st' st2 :
  check_range v r [] st = ([], st') →
  distance_cache st' ⊆ distance_cache st2 →
  check_range v r [] st2 = ([], st2).
Proof.
  unfold check_range. intros Hrun Hsub.
  destruct (range_loop _ _ _ (_, _, st)) as [[t e] st1] eqn:Hl.
  assert (e = [] ∧ st1 = st'
          ∧ fgt t (of_int (range (vehicle_spec r))) = false)
    as (-> & -> & Hf).
  { destruct (fgt _ _); simplify_eq; [| done].
    by destruct e. }
  rewrite (range_loop_replay v _ _ _ _ _ _ st2 Hl Hsub). by rewrite Hf.
Qed.

Lemma check_routes_replay v (routes : list Route) visited visited2
    st st2 :
  (check_routes v routes ([], visited, st)).1.1 = [] →
  distance_cache (check_routes v routes ([], visited, st)).2
  ⊆ distance_cache st2 →
  (check_routes v routes ([], visited2, st2)).1.1 = []
  ∧ (check_routes v routes ([], visited2, st2)).2 = st2.
Proof.
  unfold check_routes. revert visited visited2 st.
  induction routes as [| r routes IH]; intros visited visited2 st Hnil Hsub;
    [done |].
  cbn [fold_left] in *. rewrite check_route_parts in Hnil, Hsub |- *.
  cbn [app] in *.
  set (E := closure_capacity_errors r ++ (check_range v r [] st).1
            ++ demand_count_errors v r) in *.
  destruct (check_routes_spec v routes E
              (list_to_set (served_stops r) ∪ visited)
              (check_range v r [] st).2)
    as (e' & vis' & st' & Hrun & Hpre & _).
  unfold check_routes in Hrun. rewrite Hrun in Hnil, Hsub.
  cbn in Hnil, Hsub. subst e'. apply prefix_nil_inv in Hpre.
  rewrite Hpre in Hrun. unfold E in Hpre.
  apply app_eq_nil in Hpre as [HA [HB HC]%app_eq_nil].
  assert (distance_cache (check_range v r [] st).2 ⊆ distance_cache st2)
    as Hsub1.
  { destruct (check_routes_grows_aux v routes _ _ _ _ _ _ Hrun) as (new & Hg).
    etrans; [apply Hg | exact Hsub]. }
  assert (check_range v r [] st2 = ([], st2)) as Hr2.
  { apply (check_range_replay v r st (check_range v r [] st).2 st2);
      [| exact Hsub1].
    rewrite <- HB at 2. apply surjective_pairing. }
  rewrite Hr2, HA, HC. cbn.
  eapply IH; [by rewrite Hrun | by rewrite Hrun].
Qed.

(** The result of a feasible pass repeats on every state with a larger
    cache. *)
Lemma feasible_rerun v st (res : ValidationResult num) st1 st2 :
  validate_solution v st = (Ok res, st1) →
  feasible res = true →
  distance_cache st1 ⊆ distance_cache st2 →
  cache_file_writable st2 = true →
  validate_solution v st2 = (Ok res, saved st2).
Proof.
  intros Hrun Hfeas Hsub Hw.
  pose proof Hrun as Hrows.
  apply validate_solution_Ok in Hrows as (errs & visited & st_r & Hv & _).
  apply validate_routes_Ok_inv in Hv.
  destruct (read_routes_Ok v _ Hv) as [routes Hall].
  apply validate_solution_Ok in Hrun
    as (errs' & visited' & st_r' & Hv' & _ & -> & Herrs & Hf).
  rewrite Hf in Hfeas. apply Nat.eqb_eq, nil_length_inv in Hfeas.
  assert (res = {| feasible := true; errors := [] |}) as ->.
  { destruct res as [f e]. cbn in Hf, Hfeas. rewrite Hfeas in Hf |- *.
    by rewrite Hf. }
  cbn in Herrs. symmetry in Herrs. apply app_eq_nil in Herrs as [-> Hmiss].
  rewrite (validate_routes_all v _ routes _ Hall) in Hv'.
  injection Hv' as He Hvis Hst. cbn in Hsub. rewrite <- Hst in Hsub.
  destruct (check_routes_replay v routes ∅ ∅ st st2 He Hsub) as [He2 Hst2].
  assert ((check_routes v routes ([], ∅, st2)).1.2 = visited') as Hvis2.
  { destruct (check_routes_spec v routes [] ∅ st)
      as (e1 & vis1 & s1 & Heq1 & _ & Hm1 & _).
    destruct (check_routes_spec v routes [] ∅ st2)
      as (e2 & vis2 & s2 & Heq2 & _ & Hm2 & _).
    rewrite Heq1 in Hvis. rewrite Heq2. cbn in *. subst vis1.
    apply set_eq. intros c. by rewrite Hm1, Hm2. }
  unfold validate_solution.
  rewrite (validate_routes_all v _ routes _ Hall), He2, Hvis2, Hst2.
  cbn. apply fmap_nil_inv in Hmiss. rewrite Hmiss.
  unfold save_cache. by rewrite Hw.
Qed.

(** X17: after a pass that returned feasible, a second pass on the same
    validator, or on any state whose cache contains the one the first
    pass ended with, returns the same result and changes nothing but the
    cache file: it calls no strategy and sends no request. *)
Theorem feasible_pass_repeats v st (res : ValidationResult num) st1 st2 :
  validate_solution v st = (Ok res, st1) →
  feasible res = true →
  distance_cache st1 ⊆ distance_cache st2 →
  cache_file_writable st2 = true →
  validate_solution v st2 = (Ok res, saved st2).
Proof. apply feasible_rerun. Qed.

(** X18: a new process that finds the cache file written by a feasible
    pass loads exactly the cache that pass ended with, and validates the
    same solution feasible without calling a strategy. *)
Theorem saved_cache_serves_next_run v st (res : ValidationResult num)
    st1 st0 :
  validate_solution v st = (Ok res, st1) →
  feasible res = true →
  cache_file st0 = cache_file st1 →
  cache_file_writable st0 = true →
  distance_cache (load_cache st0) = distance_cache st1
  ∧ validate_solution v (load_cache st0)
    = (Ok res, saved (load_cache st0)).
Proof.
  intros Hrun Hfeas Hfile Hw.
  assert (distance_cache (load_cache st0) = distance_cache st1) as Hc.
  { apply validate_solution_Ok in Hrun as (? & ? & st_r & _ & _ & -> & _).
    unfold load_cache. cbn. by rewrite Hfile. }
  split; [exact Hc |].
  eapply feasible_rerun; [exact Hrun | exact Hfeas | by rewrite Hc | exact Hw].
Qed.

End Rerun.

(** ** Demands beyond the last client stop, and cached legs *)

Section Demands.
Context {num : Type} `{!FloatOps num} `{!External num}.
Implicit Types (v : SolutionValidator num) (st : State num).
Implicit Types (errs : list (error num)) (visited : gset string).

Lemma demand_loop_extra v (r : Route) (extra : list Z) (seq : list string)
    (idx : nat) visited errs :
  (idx + length (filter (λ loc, is_client_stop loc = true) seq)
   ≤ length (demands_satisfied r))%nat →
  demand_loop v (with_demands r (demands_satisfied r ++ extra)) seq
    (idx, visited, errs)
  = demand_loop v r seq (idx, visited, errs).
Proof.
  unfold demand_loop. revert idx visited errs.
  induction seq as [| loc seq IH]; intros idx visited errs Hlen; [done |].
  cbn [fold_left]. rewrite filter_cons in Hlen.
  unfold demand_step at 2 4. cbn [demands_satisfied with_demands vehicle_id].
  destruct (is_client_stop loc) eqn:Hloc.
  2: { rewrite decide_False in Hlen by done. by apply IH. }
  rewrite decide_True in Hlen by done. cbn [length] in Hlen.
  rewrite lookup_app_l by lia.
  destruct (demands_satisfied r !! idx) as [actual |] eqn:Hd.
  - apply IH. lia.
  - apply lookup_ge_None in Hd. lia.
Qed.

(** X19: declared demands beyond the last client stop are ignored: when
    the list has at least one entry per client stop, appending further
    entries changes nothing in what the checks of the route find. *)
Theorem trailing_demands_ignored v (r : Route) (extra : list Z)
    (acc : list (error num) * gset string * State num) :
  (length (route_clients r) ≤ length (demands_satisfied r))%nat →
  check_route v (with_demands r (demands_satisfied r ++ extra)) acc
  = check_route v r acc.
Proof.
  intros Hlen. destruct acc as [[errs visited] st]. unfold check_route.
  change (check_range v (with_demands r (demands_satisfied r ++ extra)))
    with (check_range v r).
  cbn [vehicle_id depot_id initial_load route_sequence clients_served
       vehicle_spec with_demands].
  destruct (check_range v r _ st) as [errs3 st3].
  by rewrite demand_loop_extra by (cbn; exact Hlen).
Qed.

Lemma range_loop_cached v (vid : string) (pairs : list (string * string))
    (total : num) errs st :
  Forall (λ p, known v p.1 = true ∧ known v p.2 = true
               ∧ is_Some (distance_cache st
                            !! cache_key p.1 p.2 (distance_method v)))
         pairs →
  ∃ total', range_loop v vid pairs (total, errs, st) = (total', errs, st).
Proof.
  intros Hall. unfold range_loop. revert total.
  induction Hall as [| [a b] pairs (Ha & Hb & [d Hd]) _ IH]; intros total.
  { by eexists. }
  cbn [fold_left]. unfold range_step at 2. cbn in Ha, Hb, Hd.
  rewrite Ha, Hb. cbn [negb].
  rewrite (calculate_distance_hit v a b st d Hd). apply IH.
Qed.

(** X20: a route whose legs all join known locations and are all in the
    cache is range-checked without calling a strategy or sending a
    request, whatever the method is called: the state is left as it is
    and the only error the check can add is "exceeds range". *)
Theorem cached_route_needs_no_strategy v (r : Route) errs st :
  Forall (λ p, known v p.1 = true ∧ known v p.2 = true
               ∧ is_Some (distance_cache st
                            !! cache_key p.1 p.2 (distance_method v)))
         (consecutive_pairs (route_sequence r)) →
  ∃ total,
    check_range v r errs st
    = (if fgt total (of_int (range (vehicle_spec r))) then
         errs ++ [RangeExceeded (vehicle_id r) total (range (vehicle_spec r))]
       else errs, st).
Proof.
  intros Hall. unfold check_range.
  destruct (range_loop_cached v (vehicle_id r) _ (of_int 0) errs st Hall)
    as [total ->].
  exists total. by destruct (fgt _ _).
Qed.

Lemma NoDup_remove_dups_length (l : list string) :
  NoDup l → length (remove_dups l) = length l.
Proof.
  induction 1 as [| x l Hx _ IH]; cbn; [done |].
  destruct (decide_rel elem_of x l); [done |]. cbn. by rewrite IH.
Qed.

Lemma demand_loop_silent v (r : Route) (seq : list string) (idx : nat)
    visited errs :
  (∀ (i : nat) (c : string),
     filter (λ loc, is_client_stop loc = true) seq !! i = Some c →
     ∃ d, demands_satisfied r !! (idx + i)%nat = Some d
          ∧ d = default 0 (client_demands v !! c)) →
  (demand_loop v r seq (idx, visited, errs)).2 = errs.
Proof.
  unfold demand_loop. revert idx visited.
  induction seq as [| loc seq IH]; intros idx visited Hd; [done |].
  cbn [fold_left]. rewrite filter_cons in Hd. unfold demand_step at 2.
  destruct (is_client_stop loc) eqn:Hloc.
  2: { rewrite decide_False in Hd by done. by apply IH. }
  rewrite decide_True in Hd by done.
  destruct (Hd 0%nat loc eq_refl) as (d & Hlook & ->).
  rewrite Nat.add_0_r in Hlook. rewrite Hlook.
  rewrite bool_decide_eq_false_2 by (intros Hne; by apply Hne).
  apply IH. intros i c Hc. destruct (Hd (S i) c Hc) as (d & Hl & ->).
  exists (default 0 (client_demands v !! c)). split; [| done].
  by replace (S idx + i)%nat with (idx + S i)%nat by lia.
Qed.

Lemma known_pairs_not_reported v (vid : string)
    (pairs : list (string * string)) :
  Forall (λ p, known v p.1 = true ∧ known v p.2 = true) pairs →
  omap (λ p, pair vid <$> reported_endpoint v p) pairs = [].
Proof.
  induction 1 as [| p pairs [Ha Hb] _ IH]; [done |].
  cbn. unfold reported_endpoint at 1. by rewrite Ha, Hb.
Qed.

(** X21: a route that respects the rules draws no error from checks 1,
    2 and 4, from the two counts, or for an invalid location, in whatever
    state it is checked; the only errors left to it are those of the
    distances: a failed computation or a total beyond the range. *)
Theorem rules_silence_static_checks v (r : Route) st :
  route_respects_rules v r →
  closure_capacity_errors (num := num) r = []
  ∧ demand_count_errors v r = []
  ∧ invalid_locations (check_range v r [] st).1 = [].
Proof.
  intros [[Hfirst Hlast] Hcap Hknown Hnd Hserved Hpresent Hright].
  split; [| split].
  - unfold closure_capacity_errors, starts_and_ends_at.
    rewrite !bool_decide_eq_true_2 by done. cbn.
    by rewrite bool_decide_eq_false_2 by lia.
  - unfold demand_count_errors.
    rewrite demand_loop_silent.
    + rewrite bool_decide_eq_false_2
        by (rewrite NoDup_remove_dups_length by done; intros Hne;
            by apply Hne).
      by rewrite bool_decide_eq_false_2 by (intros Hne; by apply Hne).
    + intros i c Hc. fold (route_clients r) in Hc. cbn.
      destruct (lookup_lt_is_Some_2 (demands_satisfied r) i) as [d Hd].
      { apply lookup_lt_Some in Hc. lia. }
      exists d. split; [done |]. by eapply Hright.
  - unfold check_range.
    destruct (range_loop_skips v (vehicle_id r)
                (consecutive_pairs (route_sequence r)) (of_int 0) [] [] st)
      as (t & e1 & e2 & st' & -> & _ & Hinv).
    assert (invalid_locations e1 = []) as He1.
    { rewrite Hinv. cbn. by apply known_pairs_not_reported. }
    destruct (fgt _ _); cbn [fst]; [| done].
    by rewrite invalid_locations_app, He1.
Qed.

End Demands.

(** ** What no check looks at *)

(** X22: the aliases "CDB" and "CDC", which check 4 keeps out of the
    client stops beside "CDA", are never known locations: [__init__]
    gives an alias to depot 1 only. *)
Theorem other_aliases_unknown {num : Type} (method : string)
    (vehicles : list VehicleRow) (clients : list (ClientRow num))
    (depots : list (DepotRow num)) (solution : list SolutionRow) :
  known (init method vehicles clients depots solution) "CDB" = false
  ∧ known (init method vehicles clients depots solution) "CDC" = false
  ∧ is_client_stop "CDB" = false ∧ is_client_stop "CDC" = false.
Proof.
  assert (∀ rest : string,
            String "C" rest ≠ "CDA"%string → all_numeral rest = false →
            known (init method vehicles clients depots solution)
                  (String "C" rest) = false) as Hunknown.
  { intros rest Hne Hnum. unfold known. apply bool_decide_eq_false_2.
    cbn [locations init]. rewrite build_locations_string_keys.
    intros [[? _] | (c & _ & Hc)]; [done |].
    rewrite client_key_cons in Hc. injection Hc as ->.
    by rewrite fmt_03d_numeral in Hnum. }
  split; [by apply Hunknown |]. split; [by apply Hunknown |]. done.
Qed.

Section Doubled.
Context {num : Type} `{!FloatOps num} `{!External num}.
Implicit Types (v : SolutionValidator num) (st : State num).

(** X23: no check compares one route with another: when a solution is
    feasible, the solution that lists every one of its routes twice is
    feasible too, although it uses every vehicle twice and serves every
    client twice. *)
Theorem doubled_solution_still_feasible v st (res : ValidationResult num)
    st1 :
  validate_solution v st = (Ok res, st1) →
  feasible res = true →
  validate_solution (with_solution v (solution_df v ++ solution_df v)) st
  = (Ok res, st1).
Proof.
  intros Hrun Hfeas.
  pose proof Hrun as Hrows.
  apply validate_solution_Ok in Hrows as (errs & visited & st_r & Hv & _).
  apply validate_routes_Ok_inv in Hv.
  destruct (read_routes_Ok v _ Hv) as [routes Hall].
  apply validate_solution_Ok in Hrun
    as (errs' & visited' & st_r' & Hv' & Hw & -> & Herrs & Hf).
  rewrite Hf in Hfeas. apply Nat.eqb_eq, nil_length_inv in Hfeas.
  assert (res = {| feasible := true; errors := [] |}) as ->.
  { destruct res as [f e]. cbn in Hf, Hfeas. rewrite Hfeas in Hf |- *.
    by rewrite Hf. }
  cbn in Herrs. symmetry in Herrs. apply app_eq_nil in Herrs as [-> Hmiss].
  apply fmap_nil_inv in Hmiss.
  rewrite (validate_routes_all v _ routes _ Hall) in Hv'.
  injection Hv' as He Hvis Hst.
  set (v2 := with_solution v (solution_df v ++ solution_df v)).
  assert (Forall2 (λ row r, read_route v2 row = Ok r)
                  (solution_df v2) (routes ++ routes)) as Hall2.
  { cbn [solution_df v2 with_solution]. by apply Forall2_app. }
  assert (check_routes v2 (routes ++ routes) ([], ∅, st)
          = check_routes v routes (check_routes v routes ([], ∅, st)))
    as Hfold.
  { unfold check_routes. by rewrite fold_left_app. }
  destruct (check_routes v routes ([], ∅, st)) as [[e1 vis1] s1] eqn:Hfirst.
  cbn in He, Hvis, Hst. subst e1 vis1 s1.
  destruct (check_routes_replay v routes ∅ visited' st st_r') as [He2 Hst2].
  { by rewrite Hfirst. }
  { by rewrite Hfirst. }
  assert (missing_clients v
            (check_routes v routes ([], visited', st_r')).1.2 = []) as Hmiss2.
  { destruct (check_routes_spec v routes [] visited' st_r')
      as (e2 & vis2 & s2 & Heq2 & _ & Hm2 & _).
    rewrite Heq2. cbn.
    destruct (missing_clients v vis2) as [| c rest] eqn:Hlist; [done |].
    assert (c ∈ missing_clients v vis2) as Hin
      by (rewrite Hlist; apply elem_of_cons; by left).
    unfold missing_clients in Hin.
    apply elem_of_elements, elem_of_difference in Hin as [Hc Hn].
    assert (c ∈ missing_clients v visited') as Hbad.
    { unfold missing_clients. apply elem_of_elements, elem_of_difference.
      split; [done |]. intros Hvis. apply Hn, Hm2. by right. }
    rewrite Hmiss in Hbad. by apply elem_of_nil in Hbad. }
  unfold validate_solution.
  rewrite (validate_routes_all v2 _ (routes ++ routes) _ Hall2), Hfold.
  cbn [fst snd]. rewrite He2, Hst2.
  change (missing_clients v2) with (missing_clients v). rewrite Hmiss2.
  cbn. unfold save_cache. by rewrite Hw.
Qed.

End Doubled.

(** ** Cells that the loader typed as numbers *)

Section IntegerCells.
Context {num : Type} `{!FloatOps num} `{!External num}.

(** X24: when the loader typed the sequence cell or the demand cell of
    the first row as an integer (what it makes of a column of bare
    numerals, as the demand column of a file in which every route serves
    one client), the pass stops at the [split] of line 180 or 182 with an
    [AttributeError]: no check is made and the state is untouched,
    whatever the rest of the frame, the method and the cache. *)
Theorem integer_cell_stops_pass (v : SolutionValidator num) (row : FrameRow)
    (rest : list FrameRow) (st : State num) :
  (∃ n, frame_RouteSequence row = IntCell n)
  ∨ (∃ n, frame_DemandsSatisfied row = IntCell n) →
  validate_frame v (row :: rest) st = (Raise (attribute_error "split"), st).
Proof.
  intros H. unfold validate_frame. cbn [validate_frame_routes].
  unfold read_frame_route.
  destruct (frame_RouteSequence row) as [s | m]; [| done].
  destruct H as [[n H] | [n H]]; [done |]. by rewrite H.
Qed.

End IntegerCells.

(** ** Instances on the data set of the end-to-end test *)

Section ExtraWitnesses.
#[local] Existing Instance offline.

Lemma offline_unknown_vehicle_run :
  validate_solution (base_case_with "haversine" [unknown_vehicle_row])
    fresh_state
  = (Raise (KeyError "2"), fresh_state).
Proof. reflexivity. Qed.

Lemma base_route_read :
  Forall2 (λ row r, read_route (base_case "haversine") row = Ok r)
          (solution_df (base_case "haversine"))
          [base_route ["CDA"; "C001"; "CDA"]%string].
Proof. constructor; [| constructor]. by apply (read_base_row "haversine"). Qed.

Lemma stranger_route_read :
  Forall2 (λ row r,
             read_route
               (base_case_with "haversine" [base_row "C999-C001" "5"]) row
             = Ok r)
          (solution_df (base_case_with "haversine"
                          [base_row "C999-C001" "5"]))
          [base_route ["C999"; "C001"]%string].
Proof. constructor; [| constructor]. by apply (read_base_row "haversine"). Qed.

Lemma base_route_respects_rules :
  route_respects_rules (base_case "haversine")
    (base_route ["CDA"; "C001"; "CDA"]%string).
Proof.
  split.
  - by split.
  - cbn. lia.
  - repeat constructor.
  - change (route_clients _) with ["C001"%string]. apply NoDup_singleton.
  - reflexivity.
  - change (route_clients _) with ["C001"%string]. cbn. lia.
  - change (route_clients _) with ["C001"%string].
    intros [| i] c d Hc Hd; [| done]. cbn in Hc, Hd. by simplify_eq.
Qed.

(** Witness of X7: the client of the test after an older row for it. *)
Lemma last_client_row_registered_witness :
  build_locations base_depots ([old_client_row] ++ base_client_row :: [])
    !! StrKey (client_key (ClientID base_client_row))
  = Some (client_entry base_client_row)
  ∧ build_client_demands ([old_client_row] ++ base_client_row :: [])
      !! client_key (ClientID base_client_row)
    = Some (Demand base_client_row).
Proof.
  apply (last_client_row_registered base_depots [old_client_row] []
           base_client_row).
  constructor.
Defined.

(** Witness of X8: the vehicle of the test, and the number 2. *)
Lemma vehicle_specs_lookup_witness :
  build_vehicle_specs ([] ++ base_vehicle_row :: [])
    !! VehicleID base_vehicle_row = Some (vehicle_entry base_vehicle_row)
  ∧ (Forall (λ r', VehicleID r' ≠ 2) ([] ++ base_vehicle_row :: []) →
     build_vehicle_specs ([] ++ base_vehicle_row :: []) !! 2 = None).
Proof.
  apply (vehicle_specs_lookup [] [] base_vehicle_row 2). constructor.
Defined.

(** Witness of X10: the row for a vehicle outside the fleet. *)
Lemma failed_pass_keeps_cache_file_witness :
  cache_file fresh_state = cache_file fresh_state
  ∧ distance_cache fresh_state ⊆ distance_cache fresh_state.
Proof.
  exact (failed_pass_keeps_cache_file
           (base_case_with "haversine" [unknown_vehicle_row]) fresh_state
           (KeyError "2") fresh_state offline_unknown_vehicle_run).
Defined.



(** Witness of X13: two stops that the registry does not have. *)
Lemma calculate_distance_unknown_location_witness :
  calculate_distance (base_case "haversine") "X" "Y" fresh_state
  = (Raise (KeyError ("'" +:+ "X" +:+ "'")),
     log_event (StrategyCall (distance_method (base_case "haversine"))
                  "X" "Y") fresh_state).
Proof.
  apply (calculate_distance_unknown_location (base_case "haversine")
           "X" "Y" "X" fresh_state).
  - apply elem_of_cons. by left.
  - reflexivity.
  - reflexivity.
Defined.

(** Witness of X15: the route C999-C001 with one declared demand. *)
Lemma coverage_errors_exact_witness :
  ∃ (route_errs : list (error R)) (missing : list string),
    errors {| feasible := false;
              errors := [RouteNotClosed "VEH1" (StrKey "CDA");
                         InvalidLocation "VEH1" "C999";
                         IncorrectDemand "VEH1" "C999" 5 0;
                         MissingDemand "VEH1" "C001";
                         ServedMismatch "VEH1" 2 1;
                         NotVisited "C001"] |}
    = route_errs ++ map NotVisited missing
    ∧ Forall (λ e, is_not_visited e = false) route_errs
    ∧ NoDup missing
    ∧ ∀ c, c ∈ missing ↔
           is_Some (client_demands
                      (base_case_with "haversine"
                         [base_row "C999-C001" "5"]) !! c)
           ∧ ∀ r, r ∈ [base_route ["C999"; "C001"]%string] →
                  c ∉ served_stops r.
Proof.
  exact (coverage_errors_exact _ fresh_state _ _ _
           stranger_route_read offline_stranger_run).
Defined.

(** Witness of X16: the pass over the test data set. *)
Lemma feasible_routes_respect_rules_witness :
  Forall2 (λ r st_r, route_respects_rules (base_case "haversine") r
                     ∧ route_within_range (base_case "haversine") r st_r)
          [base_route ["CDA"; "C001"; "CDA"]%string]
          (route_states (base_case "haversine")
             [base_route ["CDA"; "C001"; "CDA"]%string] fresh_state)
  ∧ ∀ c, is_Some (client_demands (base_case "haversine") !! c) →
         ∃ r, r ∈ [base_route ["CDA"; "C001"; "CDA"]%string]
              ∧ c ∈ route_clients r.
Proof.
  exact (feasible_routes_respect_rules _ fresh_state _ _ _
           base_route_read offline_base_run eq_refl).
Defined.

(** Witness of X17: the pass over the test data set, run twice on the
    same validator. *)
Lemma feasible_pass_repeats_witness :
  validate_solution (base_case "haversine") base_final_state
  = (Ok {| feasible := true; errors := [] |}, saved base_final_state).
Proof.
  apply (feasible_pass_repeats (base_case "haversine") fresh_state
           _ base_final_state base_final_state offline_base_run).
  - reflexivity.
  - reflexivity.
  - reflexivity.
Defined.

(** Witness of X18: the pass over the test data set, then a new
    process. *)
Lemma saved_cache_serves_next_run_witness :
  distance_cache (load_cache next_process) = distance_cache base_final_state
  ∧ validate_solution (base_case "haversine") (load_cache next_process)
    = (Ok {| feasible := true; errors := [] |},
       saved (load_cache next_process)).
Proof.
  apply (saved_cache_serves_next_run (base_case "haversine") fresh_state
           _ base_final_state next_process offline_base_run).
  - reflexivity.
  - reflexivity.
  - reflexivity.
Defined.

(** Witness of X19: the test route with two more declared demands. *)
Lemma trailing_demands_ignored_witness :
  check_route (base_case "haversine")
    (with_demands (base_route ["CDA"; "C001"; "CDA"]%string)
       (demands_satisfied (base_route ["CDA"; "C001"; "CDA"]%string)
        ++ [7; 8]))
    ([], ∅, fresh_state)
  = check_route (base_case "haversine")
      (base_route ["CDA"; "C001"; "CDA"]%string) ([], ∅, fresh_state).
Proof.
  apply (trailing_demands_ignored (base_case "haversine")
           (base_route ["CDA"; "C001"; "CDA"]%string) [7; 8]
           ([], ∅, fresh_state)).
  change (1 ≤ 1)%nat. lia.
Defined.

(** Witness of X20: both legs of the test route cached under a method
    name that is none of the three. *)
Lemma cached_route_needs_no_strategy_witness :
  ∃ total,
    check_range (base_case "foo")
      (base_route ["CDA"; "C001"; "CDA"]%string) [] (cached_state "foo")
    = (if fgt total (of_int (range (vehicle_spec
                                      (base_route ["CDA"; "C001"; "CDA"]%string))))
       then [] ++ [RangeExceeded
                     (vehicle_id (base_route ["CDA"; "C001"; "CDA"]%string))
                     total
                     (range (vehicle_spec
                               (base_route ["CDA"; "C001"; "CDA"]%string)))]
       else [], cached_state "foo").
Proof.
  apply (cached_route_needs_no_strategy (base_case "foo")
           (base_route ["CDA"; "C001"; "CDA"]%string) [] (cached_state "foo")).
  repeat constructor; by eexists.
Defined.

(** Witness of X21: the test route. *)
Lemma rules_silence_static_checks_witness :
  closure_capacity_errors (num := R)
    (base_route ["CDA"; "C001"; "CDA"]%string) = []
  ∧ demand_count_errors (base_case "haversine")
      (base_route ["CDA"; "C001"; "CDA"]%string) = []
  ∧ invalid_locations
      (check_range (base_case "haversine")
         (base_route ["CDA"; "C001"; "CDA"]%string) [] fresh_state).1 = [].
Proof.
  exact (rules_silence_static_checks (base_case "haversine")
           (base_route ["CDA"; "C001"; "CDA"]%string) fresh_state
           base_route_respects_rules).
Defined.

(** Witness of X23: the route of the test data set, listed twice. *)
Lemma doubled_solution_still_feasible_witness :
  validate_solution
    (with_solution (base_case "haversine")
       (solution_df (base_case "haversine")
        ++ solution_df (base_case "haversine"))) fresh_state
  = (Ok {| feasible := true; errors := [] |}, base_final_state).
Proof.
  exact (doubled_solution_still_feasible (base_case "haversine") fresh_state
           _ _ offline_base_run eq_refl).
Defined.

(** Witness of X24: the solution file of the test as the loader reads
    it, its lone demand an integer. *)
Lemma integer_cell_stops_pass_witness :
  validate_frame (base_case "haversine") (base_frame (IntCell 5)) fresh_state
  = (Raise (attribute_error "split"), fresh_state).
Proof.
  apply (integer_cell_stops_pass (base_case "haversine")
           {| frame_VehicleId := StrCell "VEH1"; frame_DepotId := StrKey "CDA";
              frame_InitialLoad := 5;
              frame_RouteSequence := StrCell "CDA-C001-CDA";
              frame_ClientsServed := 1;
              frame_DemandsSatisfied := IntCell 5 |} [] fresh_state).
  right. exists 5. reflexivity.
Defined.

End ExtraWitnesses.
